(** * Event service of the task manager: overlap merging and single-event lookups

    A shallow embedding of [src/event/event.service.ts].  Dates are their
    epoch-millisecond value ([Date.getTime()]), JS object references that
    are compared by identity carry an explicit reference, the TypeORM
    repository is an interface ([EventRepository]) and the [async] methods
    thread the store explicitly through a small state-and-exception
    monad. *)

From Stdlib Require Import ZArith Lia.
From stdpp Require Import base list strings gmap pretty sorting.

Open Scope Z_scope.

(** ** Entities *)

(** Modelled from the spec: the entity declarations ([event.entity.ts],
    [user.entity.ts]) are imported by the service but are not part of the
    sources at hand; section 3 of the specification gives their shape. *)
Inductive EventStatus := TODO | IN_PROGRESS | DONE.

Module User.
Record t := mk { id : Z; name : string }.
End User.

(** A [User] object as it sits in an [invitees] array.  JavaScript compares
    objects by reference ([SameValueZero] in [Set]), so the reference is
    part of the model next to the fields it points to. *)
Record UserObj := { obj_ref : N; obj_user : User.t }.

Module Event.
Record t := mk {
  id : Z;
  title : string;
  description : option string;
  startTime : Z;
  endTime : Z;
  status : EventStatus;
  invitees : list UserObj
}.
End Event.

(** [Partial<Event>]: every property optional. *)
Record PartialEvent := {
  p_id : option Z;
  p_title : option string;
  p_description : option (option string);
  p_startTime : option Z;
  p_endTime : option Z;
  p_status : option EventStatus;
  p_invitees : option (list UserObj)
}.

#[global] Instance EventStatus_eq_dec : EqDecision EventStatus.
Proof. solve_decision. Defined.
#[global] Instance User_eq_dec : EqDecision User.t.
Proof. solve_decision. Defined.
#[global] Instance UserObj_eq_dec : EqDecision UserObj.
Proof. solve_decision. Defined.
#[global] Instance Event_eq_dec : EqDecision Event.t.
Proof. solve_decision. Defined.

(** ** JavaScript helpers used by the service *)

(** [d || ''] : [null], [undefined] and the empty string are falsy. *)
Definition or_empty (d : option string) : string :=
  match d with
  | Some s => if decide (s = "") then "" else s
  | None => ""
  end.

(** Reference equality of two objects. *)
Definition same_object (a b : UserObj) : bool := (obj_ref a =? obj_ref b)%N.

(** [new Set(xs)]: the elements are added one by one, an element already
    present (same reference) is skipped, insertion order is kept. *)
Fixpoint Set_add_all (seen xs : list UserObj) : list UserObj :=
  match xs with
  | [] => seen
  | x :: xs' =>
      if existsb (same_object x) seen then Set_add_all seen xs'
      else Set_add_all (seen ++ [x]) xs'
  end.

(** [Array.from(new Set(xs))] *)
Definition Array_from_Set (xs : list UserObj) : list UserObj := Set_add_all [] xs.

(** ** The pure part of [EventService] *)

(** [isOverlapping(event1, event2)] *)
Definition isOverlapping (event1 event2 : Event.t) : bool :=
  (Event.endTime event1 >? Event.startTime event2)
  && (Event.startTime event1 <? Event.endTime event2).

(** [mergeEvents(event1, event2)]: the six assignments to [event1]; its
    [id] is not assigned. *)
Definition mergeEvents (event1 event2 : Event.t) : Event.t :=
  {| Event.id := Event.id event1;
     Event.title := Event.title event1 +:+ ", " +:+ Event.title event2;
     Event.description :=
       Some (or_empty (Event.description event1) +:+ " "
             +:+ or_empty (Event.description event2));
     Event.startTime := Z.min (Event.startTime event1) (Event.startTime event2);
     Event.endTime := Z.max (Event.endTime event1) (Event.endTime event2);
     Event.status := IN_PROGRESS;
     Event.invitees :=
       Array_from_Set (Event.invitees event1 ++ Event.invitees event2) |}.

(** The loop state of [mergeAllOverlappingEvents]: [mergedEvents] and
    [currentMergedEvent] ([None] is [null]). *)
Definition SweepState : Type := list Event.t * option Event.t.

(** One iteration of [for (const event of events)]. *)
Definition sweep_step (st : SweepState) (event : Event.t) : SweepState :=
  let '(mergedEvents, currentMergedEvent) := st in
  match currentMergedEvent with
  | Some cur =>
      if isOverlapping cur event
      then (mergedEvents, Some (mergeEvents cur event))
      else (mergedEvents ++ [cur], Some event)
  | None => (mergedEvents, Some event)
  end.

(** The whole loop followed by "add the last merged event". *)
Definition sweep (events : list Event.t) : list Event.t :=
  let '(mergedEvents, currentMergedEvent) := fold_left sweep_step events ([], None) in
  match currentMergedEvent with
  | Some cur => mergedEvents ++ [cur]
  | None => mergedEvents
  end.

(** The ids computed by [removeOriginalEvents]:
    [originalEventIds.filter(id => !mergedEventIds.includes(id))]. *)
Definition eventsToDelete (originalEvents mergedEvents : list Event.t) : list Z :=
  let originalEventIds := map Event.id originalEvents in
  let mergedEventIds := map Event.id mergedEvents in
  filter (λ i, i ∉ mergedEventIds) originalEventIds.

(** The sweep seen from its accumulator: what is emitted from the moment
    [cur] is the current merged event and [events] remain. *)
Fixpoint sweep_from (cur : Event.t) (events : list Event.t) : list Event.t :=
  match events with
  | [] => [cur]
  | event :: events' =>
      if isOverlapping cur event
      then sweep_from (mergeEvents cur event) events'
      else cur :: sweep_from event events'
  end.

(** The user ids behind the objects of an invitee array. *)
Definition invitee_ids (e : Event.t) : list Z :=
  map (λ u, User.id (obj_user u)) (Event.invitees e).

(** The references held by an invitee array. *)
Definition invitee_refs (e : Event.t) : list N := map obj_ref (Event.invitees e).

(** ** The repository and the [async] methods *)

(** What a call can end in instead of a result: [NotFoundException] of
    the framework with its message, and the two rejections with which the
    repository answers arguments it does not accept. *)
Inductive Exception :=
| NotFoundException (message : string)
| TypeORMError (message : string)
| UpdateValuesMissingError.

Inductive Completion (A : Type) :=
| Return (a : A)
| Throw (e : Exception).
Arguments Return {A} a.
Arguments Throw {A} e.

(** An [async] method: it runs against the store and either returns or
    throws; [await] is sequencing. *)
Definition Async (Store A : Type) : Type := Store → Completion A * Store.

#[global] Instance Async_ret {Store} : MRet (Async Store) :=
  λ A a s, (Return a, s).

#[global] Instance Async_bind {Store} : MBind (Async Store) :=
  λ A B k m s,
    match m s with
    | (Return a, s') => k a s'
    | (Throw e, s') => (Throw e, s')
    end.

Definition throw {Store A} (e : Exception) : Async Store A := λ s, (Throw e, s).

(** A repository call that only reads. *)
Definition query {Store A} (f : Store → A) : Async Store A := λ s, (Return (f s), s).

(** A repository call that writes and answers with [r]. *)
Definition command {Store A} (f : Store → A * Store) : Async Store A :=
  λ s, let '(r, s') := f s in (Return r, s').

(** [{ where: { id }, relations }] *)
Record FindOneOptions := { where_id : Z; relations : list string }.

(** What the service asks of [Repository<Event>].  [repo_getMany userId]
    stands for the whole query-builder chain of [mergeAllOverlappingEvents]
    (join of the invitees, [user.id = :userId], order by [startTime]
    ascending, [getMany]).  [repo_update] and [repo_delete] look at their
    arguments before they reach the store and may reject them, so they are
    calls that return or throw; [repo_delete] answers with the number of
    affected rows. *)
Class EventRepository (Store : Type) := {
  repo_findOne : FindOneOptions → Store → option Event.t;
  repo_update : Z → PartialEvent → Async Store unit;
  repo_save : list Event.t → Store → Store;
  repo_delete : list Z → Async Store Z;
  repo_getMany : Z → Store → list Event.t
}.

Section Service.
Context {Store : Type} `{!EventRepository Store}.

(** [findOne(id)] *)
Definition findOne (id : Z) : Async Store Event.t :=
  event ← query (repo_findOne {| where_id := id; relations := ["invitees"] |});
  match event with
  | None => throw (NotFoundException ("Event with ID " +:+ pretty id +:+ " not found"))
  | Some event => mret event
  end.


(** [remove(id)] *)
Definition remove (id : Z) : Async Store unit :=
  affected ← repo_delete [id];
  if decide (affected = 0)
  then throw (NotFoundException ("Event with ID " +:+ pretty id +:+ " not found"))
  else mret tt.

(** [removeOriginalEvents(originalEvents, mergedEvents)] *)
Definition removeOriginalEvents (originalEvents mergedEvents : list Event.t)
  : Async Store unit :=
  repo_delete (eventsToDelete originalEvents mergedEvents);;
  mret tt.

(** [mergeAllOverlappingEvents(userId)] *)
Definition mergeAllOverlappingEvents (userId : Z) : Async Store (list Event.t) :=
  events ← query (repo_getMany userId);
  let mergedEvents := sweep events in
  command (λ s, (tt, repo_save mergedEvents s));;
  removeOriginalEvents events mergedEvents;;
  mret mergedEvents.

End Service.



(** ** The sweep on objects

    [mergeEvents] assigns to [event1], which is one of the fetched objects,
    and the loop keeps references to those objects.  Here events are
    references into a heap of objects and every assignment is a write to
    that heap. *)

Definition with_startTime (v : Z) (e : Event.t) : Event.t :=
  Event.mk (Event.id e) (Event.title e) (Event.description e) v (Event.endTime e)
    (Event.status e) (Event.invitees e).
Definition with_endTime (v : Z) (e : Event.t) : Event.t :=
  Event.mk (Event.id e) (Event.title e) (Event.description e) (Event.startTime e) v
    (Event.status e) (Event.invitees e).
Definition with_title (v : string) (e : Event.t) : Event.t :=
  Event.mk (Event.id e) v (Event.description e) (Event.startTime e) (Event.endTime e)
    (Event.status e) (Event.invitees e).
Definition with_description (v : option string) (e : Event.t) : Event.t :=
  Event.mk (Event.id e) (Event.title e) v (Event.startTime e) (Event.endTime e)
    (Event.status e) (Event.invitees e).
Definition with_status (v : EventStatus) (e : Event.t) : Event.t :=
  Event.mk (Event.id e) (Event.title e) (Event.description e) (Event.startTime e)
    (Event.endTime e) v (Event.invitees e).
Definition with_invitees (v : list UserObj) (e : Event.t) : Event.t :=
  Event.mk (Event.id e) (Event.title e) (Event.description e) (Event.startTime e)
    (Event.endTime e) (Event.status e) v.

(** One assignment [event1.f = rhs(event1, event2)]: both objects are read,
    then [event1] is written. *)
Definition assign_field (event1 event2 : N) (rhs : Event.t → Event.t → Event.t)
    (h : gmap N Event.t) : option (gmap N Event.t) :=
  e1 ← h !! event1;
  e2 ← h !! event2;
  Some (<[event1 := rhs e1 e2]> h).

(** [mergeEvents(event1, event2)] on objects: six assignments in the order
    of the source; the reference [event1] is what it returns. *)
Definition mergeEvents_obj (event1 event2 : N) (h : gmap N Event.t)
  : option (gmap N Event.t) :=
  h ← assign_field event1 event2
         (λ e1 e2, with_startTime (Z.min (Event.startTime e1) (Event.startTime e2)) e1) h;
  h ← assign_field event1 event2
         (λ e1 e2, with_endTime (Z.max (Event.endTime e1) (Event.endTime e2)) e1) h;
  h ← assign_field event1 event2
         (λ e1 e2, with_title (Event.title e1 +:+ ", " +:+ Event.title e2) e1) h;
  h ← assign_field event1 event2
         (λ e1 e2, with_description
                     (Some (or_empty (Event.description e1) +:+ " "
                            +:+ or_empty (Event.description e2))) e1) h;
  h ← assign_field event1 event2 (λ e1 _, with_status IN_PROGRESS e1) h;
  assign_field event1 event2
    (λ e1 e2, with_invitees (Array_from_Set (Event.invitees e1 ++ Event.invitees e2)) e1) h.

(** One iteration of the loop on references. *)
Definition sweep_step_obj (mergedEvents : list N) (currentMergedEvent : option N)
    (h : gmap N Event.t) (event : N) : option (list N * option N * gmap N Event.t) :=
  match currentMergedEvent with
  | Some cur =>
      ec ← h !! cur;
      ee ← h !! event;
      if isOverlapping ec ee
      then h' ← mergeEvents_obj cur event h; Some (mergedEvents, Some cur, h')
      else Some (mergedEvents ++ [cur], Some event, h)
  | None => Some (mergedEvents, Some event, h)
  end.

Fixpoint sweep_loop_obj (events : list N) (mergedEvents : list N)
    (currentMergedEvent : option N) (h : gmap N Event.t)
  : option (list N * option N * gmap N Event.t) :=
  match events with
  | [] => Some (mergedEvents, currentMergedEvent, h)
  | event :: events' =>
      '(mergedEvents', cur', h') ← sweep_step_obj mergedEvents currentMergedEvent h event;
      sweep_loop_obj events' mergedEvents' cur' h'
  end.

(** The loop and the final push; the result is the array of references
    and the heap as the loop left it. *)
Definition sweep_obj (events : list N) (h : gmap N Event.t)
  : option (list N * gmap N Event.t) :=
  '(mergedEvents, cur, h') ← sweep_loop_obj events [] None h;
  Some (match cur with Some c => mergedEvents ++ [c] | None => mergedEvents end, h').

(** Reading an array of references. *)
Definition deref (h : gmap N Event.t) (refs : list N) : option (list Event.t) :=
  mapM (λ r, h !! r) refs.

(** ** An in-memory repository

    Rows keyed by primary key.  It is the concrete store on which the
    service is run: it rejects what the repository rejects (a delete
    without criteria, an update without values) and hydrates the fetched
    events as the query does. *)

(** [UPDATE ... SET] of the properties present in the partial entity. *)
Definition assign (d : PartialEvent) (e : Event.t) : Event.t :=
  {| Event.id := default (Event.id e) (p_id d);
     Event.title := default (Event.title e) (p_title d);
     Event.description := default (Event.description e) (p_description d);
     Event.startTime := default (Event.startTime e) (p_startTime d);
     Event.endTime := default (Event.endTime e) (p_endTime d);
     Event.status := default (Event.status e) (p_status d);
     Event.invitees := default (Event.invitees e) (p_invitees d) |}.

Definition invited (userId : Z) (e : Event.t) : Prop :=
  userId ∈ map (λ u, User.id (obj_user u)) (Event.invitees e).

Definition starts_before (a b : Event.t) : Prop :=
  Event.startTime a ≤ Event.startTime b.

#[global] Instance invited_dec userId e : Decision (invited userId e).
Proof. unfold invited. apply _. Defined.
#[global] Instance starts_before_dec a b : Decision (starts_before a b).
Proof. unfold starts_before. apply _. Defined.

Definition mem_findOne (o : FindOneOptions) (s : gmap Z Event.t) : option Event.t :=
  e ← s !! where_id o;
  Some (if decide ("invitees" ∈ relations o) then e
        else assign {| p_id := None; p_title := None; p_description := None;
                       p_startTime := None; p_endTime := None; p_status := None;
                       p_invitees := Some [] |} e).

#[global] Instance PartialEvent_eq_dec : EqDecision PartialEvent.
Proof. solve_decision. Defined.

(** The partial entity [{}]. *)
Definition no_values : PartialEvent :=
  {| p_id := None; p_title := None; p_description := None;
     p_startTime := None; p_endTime := None; p_status := None;
     p_invitees := None |}.

(** [update(id, partialEntity)]: without a value to set the call is
    rejected; otherwise the row with that id, if there is one, takes the
    values, its key included. *)
Definition mem_update (i : Z) (d : PartialEvent) : Async (gmap Z Event.t) unit :=
  λ s,
    if decide (d = no_values) then (Throw UpdateValuesMissingError, s)
    else
      (Return tt,
       match s !! i with
       | Some e => let e' := assign d e in <[Event.id e' := e']> (delete i s)
       | None => s
       end).

Definition mem_save (es : list Event.t) (s : gmap Z Event.t) : gmap Z Event.t :=
  foldl (λ m e, <[Event.id e := e]> m) s es.

(** [delete(ids)]: an empty list of criteria is rejected; otherwise the
    rows with these ids go and their number is the answer. *)
Definition mem_delete (ids : list Z) : Async (gmap Z Event.t) Z :=
  λ s,
    if decide (ids = [])
    then (Throw (TypeORMError "Empty criteria(s) are not allowed for the delete method."), s)
    else
      let s' := foldl (λ m i, delete i m) s ids in
      (Return (Z.of_nat (size s) - Z.of_nat (size s')), s').

(** The condition [user.id = :userId] is on the joined rows: an event
    that invites the user is fetched with that user as its only invitee. *)
Definition hydrate_for (userId : Z) (e : Event.t) : Event.t :=
  with_invitees
    (filter (λ u, User.id (obj_user u) = userId) (Event.invitees e)) e.

Definition mem_getMany (userId : Z) (s : gmap Z Event.t) : list Event.t :=
  merge_sort starts_before
    (map (hydrate_for userId) (filter (invited userId) (map snd (map_to_list s)))).

#[global] Instance mem_repository : EventRepository (gmap Z Event.t) := {|
  repo_findOne := mem_findOne;
  repo_update := mem_update;
  repo_save := mem_save;
  repo_delete := mem_delete;
  repo_getMany := mem_getMany
|}.

(** ** Clusters

    Two readings of "cluster", both as partitions of the fetched list into
    consecutive runs. *)

(** The head of a run: the event that opened it. *)
Definition run_head (c : list Event.t) : option Event.t := head c.

(** What the sweep leaves of a run: the events folded into the first, left
    to right. *)
Definition merge_run (c : list Event.t) : option Event.t :=
  match c with
  | [] => None
  | e :: rest => Some (foldl mergeEvents e rest)
  end.

(** The interval covered so far by a run: earliest start, latest end. *)
Fixpoint span_from (lo hi : Z) (rest : list Event.t) : Z * Z :=
  match rest with
  | [] => (lo, hi)
  | e :: rest' =>
      span_from (Z.min lo (Event.startTime e)) (Z.max hi (Event.endTime e)) rest'
  end.

Definition run_span (c : list Event.t) : Z * Z :=
  match c with
  | [] => (0, 0)
  | e :: rest => span_from (Event.startTime e) (Event.endTime e) rest
  end.

(** An event overlaps an interval: the overlap predicate with the interval
    in the place of the first event. *)
Definition overlaps_span (sp : Z * Z) (e : Event.t) : Prop :=
  Event.startTime e < sp.2 ∧ sp.1 < Event.endTime e.

(** Every event after the first overlaps the interval covered by the
    events of the run before it. *)
Fixpoint chained_from (lo hi : Z) (rest : list Event.t) : Prop :=
  match rest with
  | [] => True
  | e :: rest' =>
      overlaps_span (lo, hi) e
      ∧ chained_from (Z.min lo (Event.startTime e)) (Z.max hi (Event.endTime e)) rest'
  end.

Definition span_run (c : list Event.t) : Prop :=
  match c with
  | [] => False
  | e :: rest => chained_from (Event.startTime e) (Event.endTime e) rest
  end.

(** A partition into span-connected runs that are maximal: the event that
    opens the next run does not overlap the interval of the run before. *)
Fixpoint span_clusters (cs : list (list Event.t)) : Prop :=
  match cs with
  | [] => True
  | c :: cs' =>
      span_run c
      ∧ match cs' with
        | [] => True
        | c' :: _ =>
            match run_head c' with
            | Some e' => ¬ overlaps_span (run_span c) e'
            | None => False
            end
        end
      ∧ span_clusters cs'
  end.

(** The glossary's reading: within a run every event overlaps its
    neighbour in the fetched order ... *)
Fixpoint neighbour_run (c : list Event.t) : Prop :=
  match c with
  | [] => False
  | a :: rest =>
      match rest with
      | [] => True
      | b :: _ => isOverlapping a b = true ∧ neighbour_run rest
      end
  end.

(** ... and the runs are maximal: the last event of a run does not overlap
    the first of the next. *)
Fixpoint neighbour_clusters (cs : list (list Event.t)) : Prop :=
  match cs with
  | [] => True
  | c :: cs' =>
      neighbour_run c
      ∧ match cs' with
        | [] => True
        | c' :: _ =>
            match last c, run_head c' with
            | Some a, Some b => isOverlapping a b = false
            | _, _ => False
            end
        end
      ∧ neighbour_clusters cs'
  end.

(** Fetched in ascending order of [startTime]. *)
Definition sorted_by_start (es : list Event.t) : Prop := Sorted starts_before es.

#[global] Instance overlaps_span_dec sp e : Decision (overlaps_span sp e).
Proof. unfold overlaps_span. apply _. Defined.

(** The partition into span-connected runs, built left to right: [run] is
    the run being extended and [(lo, hi)] the interval it covers. *)
Fixpoint span_partition_from (run : list Event.t) (lo hi : Z) (es : list Event.t)
  : list (list Event.t) :=
  match es with
  | [] => [run]
  | e :: es' =>
      if decide (overlaps_span (lo, hi) e)
      then span_partition_from (run ++ [e])
             (Z.min lo (Event.startTime e)) (Z.max hi (Event.endTime e)) es'
      else run :: span_partition_from [e] (Event.startTime e) (Event.endTime e) es'
  end.

Definition span_partition (es : list Event.t) : list (list Event.t) :=
  match es with
  | [] => []
  | e :: es' => span_partition_from [e] (Event.startTime e) (Event.endTime e) es'
  end.

(** ** Time ranges *)

(** The range is not inverted (the service does not check this). *)
Definition ordered_range (e : Event.t) : Prop :=
  Event.startTime e ≤ Event.endTime e.

(** [e] comes right after [p] in the fetched list: if both start at the
    same instant, [e] lasts for some time. *)
Definition no_tied_instant (p e : Event.t) : Prop :=
  Event.startTime p = Event.startTime e → Event.startTime e < Event.endTime e.

(** [a] is over when [b], a well-ordered range, starts. *)
Definition ends_before (a b : Event.t) : Prop :=
  Event.endTime a ≤ Event.startTime b ∧ ordered_range b.

(** ** Scenario data *)

(** [new Date('2024-01-01Thh:mm:00Z').getTime()] *)
Definition on_day (h m : Z) : Z := (1704067200 + h * 3600 + m * 60) * 1000.

Definition requester : User.t := User.mk 1 "User1".

(** A [User] object for the requesting user, as hydrated for one event. *)
Definition requester_at (ref : N) : UserObj :=
  {| obj_ref := ref; obj_user := requester |}.

Definition meeting (i : Z) (t : string) (s e : Z) (inv : list UserObj) : Event.t :=
  Event.mk i t None s e TODO inv.

Definition meeting1 : Event.t :=
  meeting 1 "Meeting 1" (on_day 10 0) (on_day 11 0) [requester_at 11].
Definition meeting2 : Event.t :=
  meeting 2 "Meeting 2" (on_day 10 30) (on_day 11 30) [requester_at 12].
Definition meeting3 : Event.t :=
  meeting 3 "Meeting 3" (on_day 11 0) (on_day 12 0) [requester_at 13].

Definition evA : Event.t := meeting 1 "A" (on_day 9 0) (on_day 10 0) [requester_at 101].
Definition evB : Event.t := meeting 2 "B" (on_day 9 30) (on_day 10 30) [requester_at 102].
Definition evC : Event.t := meeting 3 "C" (on_day 10 15) (on_day 11 0) [requester_at 103].

(** The three events of the chained scenario as rows of the in-memory store. *)
Definition chained_store : gmap Z Event.t :=
  mem_save [evC; evA; evB] ∅.

(** A long event that covers two short ones which do not touch each other. *)
Definition workshop : Event.t :=
  meeting 1 "Workshop" (on_day 9 0) (on_day 12 0) [requester_at 21].
Definition standup : Event.t :=
  meeting 2 "Standup" (on_day 9 30) (on_day 10 0) [requester_at 22].
Definition review : Event.t :=
  meeting 3 "Review" (on_day 10 30) (on_day 11 0) [requester_at 23].

(** An event without duration that starts together with a long one. *)
Definition reminder : Event.t :=
  meeting 2 "Reminder" (on_day 9 0) (on_day 9 0) [requester_at 32].
Definition lunch_talk : Event.t :=
  meeting 3 "Talk" (on_day 10 0) (on_day 11 0) [requester_at 33].

(** An event of the same user that overlaps nothing, and the store that
    holds it next to the three chained ones. *)
Definition standalone : Event.t :=
  meeting 4 "Standalone" (on_day 13 0) (on_day 14 0) [requester_at 104].


(** An event whose range is inverted. *)
Definition inverted : Event.t :=
  meeting 2 "Inverted" (on_day 9 30) (on_day 9 0) [requester_at 42].


(** [a]'s range lies within [o]'s. *)
Definition within (a o : Event.t) : Prop :=
  Event.startTime o ≤ Event.startTime a ∧ Event.endTime a ≤ Event.endTime o.

(** Neighbours in the fetched order that do not overlap. *)
Definition apart (a b : Event.t) : Prop := isOverlapping a b = false.

(** Three fetched objects: two that overlap and one by itself. *)
Definition fetched_heap : gmap N Event.t :=
  <[1%N := evA]> (<[2%N := evB]> (<[3%N := standalone]> ∅)).

(** Two events of user 1 that touch at 11:00, as rows of the in-memory
    store. *)
Definition touching_store : gmap Z Event.t := mem_save [meeting3; meeting1] ∅.


(** * Properties *)

(** ** The overlap predicate and the combine step *)

Lemma isOverlapping_true (a b : Event.t) :
  isOverlapping a b = true
  ↔ Event.endTime a > Event.startTime b ∧ Event.startTime a < Event.endTime b.
Proof.
  unfold isOverlapping. rewrite andb_true_iff, Z.gtb_ltb, !Z.ltb_lt. lia.
Qed.

Lemma isOverlapping_false (a b : Event.t) :
  isOverlapping a b = false
  ↔ Event.endTime a ≤ Event.startTime b ∨ Event.endTime b ≤ Event.startTime a.
Proof.
  rewrite <- not_true_iff_false, isOverlapping_true. lia.
Qed.

Lemma isOverlapping_sym (a b : Event.t) : isOverlapping a b = isOverlapping b a.
Proof.
  destruct (isOverlapping b a) eqn:E.
  - apply isOverlapping_true. apply isOverlapping_true in E. lia.
  - apply isOverlapping_false. apply isOverlapping_false in E. lia.
Qed.

Lemma isOverlapping_span (cur e : Event.t) :
  isOverlapping cur e = true
  ↔ overlaps_span (Event.startTime cur, Event.endTime cur) e.
Proof. rewrite isOverlapping_true. unfold overlaps_span. simpl. lia. Qed.

Lemma or_empty_default (d : option string) : or_empty d = default "" d.
Proof. destruct d as [s|]; simpl; [|done]. by case_decide; subst. Qed.

Lemma append_assoc (a b c : string) : (a +:+ b) +:+ c = a +:+ (b +:+ c).
Proof.
  induction a as [|x a IH]; [done|].
  change (String x ((a +:+ b) +:+ c) = String x (a +:+ (b +:+ c))).
  by rewrite IH.
Qed.

Lemma mergeEvents_title (a b : Event.t) :
  Event.title (mergeEvents a b) = Event.title a +:+ ", " +:+ Event.title b.
Proof. reflexivity. Qed.

(** ** The sweep *)

Lemma sweep_loop (events : list Event.t) (mergedEvents : list Event.t) (cur : Event.t) :
  (let '(m, c) := fold_left sweep_step events (mergedEvents, Some cur) in
   match c with Some c => m ++ [c] | None => m end)
  = mergedEvents ++ sweep_from cur events.
Proof.
  revert mergedEvents cur.
  induction events as [|e events IH]; intros mergedEvents cur; simpl; [done|].
  destruct (isOverlapping cur e).
  - apply IH.
  - rewrite IH. by rewrite <- app_assoc.
Qed.

Lemma sweep_nil : sweep [] = [].
Proof. reflexivity. Qed.

Lemma sweep_cons (e : Event.t) (events : list Event.t) :
  sweep (e :: events) = sweep_from e events.
Proof. unfold sweep. simpl. apply (sweep_loop events [] e). Qed.

(** C1: folding an event into the accumulator during the sweep keeps the
    accumulator's id, takes the earlier start and the later end, joins the
    titles with ", " (so three titles accumulate to "T1, T2, T3"), joins the
    descriptions (absent read as empty) with one space and sets the status
    to IN_PROGRESS whatever the two statuses were. *)
Theorem fold_into_accumulator (mergedEvents : list Event.t) (A B : Event.t) :
  isOverlapping A B = true →
  ∃ A',
    sweep_step (mergedEvents, Some A) B = (mergedEvents, Some A')
    ∧ A' = mergeEvents A B
    ∧ Event.startTime A' = Z.min (Event.startTime A) (Event.startTime B)
    ∧ Event.endTime A' = Z.max (Event.endTime A) (Event.endTime B)
    ∧ Event.title A' = Event.title A +:+ ", " +:+ Event.title B
    ∧ Event.description A'
      = Some (default "" (Event.description A) +:+ " "
              +:+ default "" (Event.description B))
    ∧ Event.status A' = IN_PROGRESS
    ∧ Event.id A' = Event.id A
    ∧ (∀ C : Event.t,
         Event.title (mergeEvents A' C)
         = Event.title A +:+ ", " +:+ Event.title B +:+ ", " +:+ Event.title C)
    ∧ (∀ C : Event.t, Event.id (mergeEvents A' C) = Event.id A).
Proof.
  intros Hov. exists (mergeEvents A B).
  split; [unfold sweep_step; by rewrite Hov|].
  split; [done|]. split; [done|]. split; [done|]. split; [done|].
  split; [cbn [mergeEvents Event.description]; by rewrite !or_empty_default|].
  split; [done|]. split; [done|].
  split; [|done].
  intros C. rewrite !mergeEvents_title. by rewrite !append_assoc.
Qed.

Lemma fold_into_accumulator_witness :
  isOverlapping meeting1 meeting2 = true
  ∧ ∃ A',
      sweep_step ([], Some meeting1) meeting2 = ([], Some A')
      ∧ Event.title A' = "Meeting 1, Meeting 2"
      ∧ Event.status A' = IN_PROGRESS
      ∧ Event.id A' = 1.
Proof.
  split; [reflexivity|].
  destruct (fold_into_accumulator [] meeting1 meeting2 eq_refl)
    as (A' & Hstep & _ & _ & _ & Ht & _ & Hs & Hi & _).
  exists A'. repeat split; assumption.
Defined.

(** C2: two events overlap exactly when the first ends strictly after the
    second starts and starts strictly before the second ends; events that
    touch at a boundary do not overlap, and the sweep returns both of them
    unchanged (10:00-11:00 and 11:00-12:00 come back as they were). *)
Theorem overlap_is_strict :
  (∀ A B : Event.t,
     isOverlapping A B = true
     ↔ Event.endTime A > Event.startTime B ∧ Event.startTime A < Event.endTime B)
  ∧ (∀ A B : Event.t,
       Event.endTime A = Event.startTime B →
       isOverlapping A B = false ∧ sweep [A; B] = [A; B])
  ∧ sweep [meeting1; meeting3] = [meeting1; meeting3].
Proof.
  split; [apply isOverlapping_true|]. split; [|reflexivity].
  intros A B Heq.
  assert (isOverlapping A B = false) as Hno
    by (apply isOverlapping_false; lia).
  split; [exact Hno|].
  rewrite sweep_cons. simpl. by rewrite Hno.
Qed.

Lemma overlap_is_strict_witness :
  Event.endTime meeting1 = Event.startTime meeting3
  ∧ isOverlapping meeting1 meeting3 = false
  ∧ sweep [meeting1; meeting3] = [meeting1; meeting3].
Proof.
  split; [reflexivity|].
  exact (proj1 (proj2 overlap_is_strict) meeting1 meeting3 eq_refl).
Defined.

(** C5: for A (9:00-10:00), B (9:30-10:30) and C (10:15-11:00), each with
    the requesting user invited, the merge returns one event from 9:00 to
    11:00 titled "A, B, C": A and C do not overlap by themselves, but the
    accumulator extended by B overlaps C. *)
Theorem chained_scenario_merges_to_one :
  repo_getMany 1 chained_store = [evA; evB; evC]
  ∧ isOverlapping evA evC = false
  ∧ isOverlapping evA evB = true
  ∧ isOverlapping (mergeEvents evA evB) evC = true
  ∧ ∃ m,
      (mergeAllOverlappingEvents 1 chained_store).1 = Return [m]
      ∧ sweep [evA; evB; evC] = [m]
      ∧ Event.startTime m = on_day 9 0
      ∧ Event.endTime m = on_day 11 0
      ∧ Event.title m = "A, B, C".
Proof.
  split; [by vm_compute|]. split; [by vm_compute|].
  split; [by vm_compute|]. split; [by vm_compute|].
  exists (mergeEvents (mergeEvents evA evB) evC).
  repeat split; by vm_compute.
Qed.

(** ** Runs and what the sweep makes of them *)

Lemma foldl_merge_id (rest : list Event.t) (e : Event.t) :
  Event.id (foldl mergeEvents e rest) = Event.id e.
Proof.
  revert e. induction rest as [|b rest IH]; intros e; simpl; [done|].
  by rewrite IH.
Qed.

Lemma foldl_merge_span (rest : list Event.t) (e : Event.t) :
  (Event.startTime (foldl mergeEvents e rest), Event.endTime (foldl mergeEvents e rest))
  = span_from (Event.startTime e) (Event.endTime e) rest.
Proof.
  revert e. induction rest as [|b rest IH]; intros e; simpl; [done|].
  by rewrite IH.
Qed.

Lemma merge_run_span (c : list Event.t) (o : Event.t) :
  merge_run c = Some o → (Event.startTime o, Event.endTime o) = run_span c.
Proof.
  destruct c as [|e rest]; simpl; [done|].
  intros [= <-]. apply foldl_merge_span.
Qed.

Lemma merge_run_id (c : list Event.t) (o : Event.t) :
  merge_run c = Some o → ∃ e, run_head c = Some e ∧ Event.id o = Event.id e.
Proof.
  destruct c as [|e rest]; simpl; [done|].
  intros [= <-]. exists e. split; [done|]. apply foldl_merge_id.
Qed.

Lemma sweep_from_chained (rest more : list Event.t) (cur : Event.t) :
  chained_from (Event.startTime cur) (Event.endTime cur) rest →
  sweep_from cur (rest ++ more) = sweep_from (foldl mergeEvents cur rest) more.
Proof.
  revert cur. induction rest as [|b rest IH]; intros cur; simpl; [done|].
  intros [Hov Hrest]. apply isOverlapping_span in Hov. rewrite Hov.
  apply IH. exact Hrest.
Qed.

Lemma sweep_from_cut (cur e : Event.t) (more : list Event.t) :
  ¬ overlaps_span (Event.startTime cur, Event.endTime cur) e →
  sweep_from cur (e :: more) = cur :: sweep_from e more.
Proof.
  intros Hno. simpl. destruct (isOverlapping cur e) eqn:E; [|done].
  by apply isOverlapping_span in E.
Qed.

Lemma sweep_span_clusters (cs : list (list Event.t)) :
  span_clusters cs →
  Forall2 (λ o c, merge_run c = Some o) (sweep (concat cs)) cs.
Proof.
  induction cs as [|c cs IH]; [constructor|].
  intros (Hrun & Hcut & Hcs).
  destruct c as [|e rest]; [done|].
  simpl in Hrun.
  change (concat ((e :: rest) :: cs)) with (e :: (rest ++ concat cs)).
  rewrite sweep_cons, (sweep_from_chained _ _ _ Hrun).
  destruct cs as [|c' cs'].
  - simpl. by repeat constructor.
  - destruct c' as [|e' rest']; [done|].
    simpl in Hcut.
    rewrite <- foldl_merge_span in Hcut.
    change (concat ((e' :: rest') :: cs')) with (e' :: (rest' ++ concat cs')) in *.
    rewrite (sweep_from_cut _ _ _ Hcut).
    constructor; [done|].
    rewrite <- sweep_cons. by apply IH.
Qed.

Lemma span_from_app (l : list Event.t) (e : Event.t) (lo hi : Z) :
  span_from lo hi (l ++ [e])
  = (Z.min (span_from lo hi l).1 (Event.startTime e),
     Z.max (span_from lo hi l).2 (Event.endTime e)).
Proof.
  revert lo hi. induction l as [|b l IH]; intros lo hi; simpl; [done|]. apply IH.
Qed.

Lemma chained_from_app (l : list Event.t) (e : Event.t) (lo hi : Z) :
  chained_from lo hi (l ++ [e])
  ↔ chained_from lo hi l ∧ overlaps_span (span_from lo hi l) e.
Proof.
  revert lo hi. induction l as [|b l IH]; intros lo hi; simpl.
  - tauto.
  - rewrite IH. tauto.
Qed.

Lemma span_partition_from_spec (es : list Event.t) :
  ∀ (r0 : Event.t) (rtail : list Event.t) (lo hi : Z),
    chained_from (Event.startTime r0) (Event.endTime r0) rtail →
    span_from (Event.startTime r0) (Event.endTime r0) rtail = (lo, hi) →
    ∃ c cs',
      span_partition_from (r0 :: rtail) lo hi es = c :: cs'
      ∧ run_head c = Some r0
      ∧ concat (c :: cs') = (r0 :: rtail) ++ es
      ∧ span_clusters (c :: cs').
Proof.
  induction es as [|e es IH]; intros r0 rtail lo hi Hch Hsp.
  - exists (r0 :: rtail), []. simpl. by rewrite !app_nil_r.
  - cbn [span_partition_from]. case_decide as Hov.
    + destruct (IH r0 (rtail ++ [e]) (Z.min lo (Event.startTime e))
                  (Z.max hi (Event.endTime e))) as (c & cs' & Heq & Hhd & Hcat & Hcl).
      * apply chained_from_app. by rewrite Hsp.
      * by rewrite span_from_app, Hsp.
      * exists c, cs'. change ((r0 :: rtail) ++ [e]) with (r0 :: (rtail ++ [e])).
        rewrite Heq. split; [done|]. split; [done|]. split; [|done].
        rewrite Hcat. simpl. by rewrite <- app_assoc.
    + destruct (IH e [] (Event.startTime e) (Event.endTime e) I eq_refl)
        as (c & cs' & Heq & Hhd & Hcat & Hcl).
      exists (r0 :: rtail), (c :: cs'). rewrite Heq.
      split; [done|]. split; [done|]. split.
      * change (concat ((r0 :: rtail) :: c :: cs'))
          with ((r0 :: rtail) ++ concat (c :: cs')).
        by rewrite Hcat.
      * split; [exact Hch|]. split; [|exact Hcl].
        rewrite Hhd. simpl. by rewrite Hsp.
Qed.

(** Every fetched list has a partition into maximal span-connected runs. *)
Lemma span_partition_spec (es : list Event.t) :
  concat (span_partition es) = es ∧ span_clusters (span_partition es).
Proof.
  destruct es as [|e es]; [done|]. unfold span_partition.
  destruct (span_partition_from_spec es e [] (Event.startTime e) (Event.endTime e)
              I eq_refl) as (c & cs' & Heq & _ & Hcat & Hcl).
  rewrite Heq. done.
Qed.

(** ** Sorted input *)

Lemma starts_before_trans : Transitive starts_before.
Proof. intros a b c. unfold starts_before. lia. Qed.

Lemma span_from_fst_sorted (rest : list Event.t) (lo hi : Z) :
  Forall (λ e, lo ≤ Event.startTime e) rest → (span_from lo hi rest).1 = lo.
Proof.
  revert hi. induction rest as [|e rest IH]; intros hi Hall; simpl; [done|].
  apply Forall_cons in Hall as [He Hall].
  rewrite Z.min_l by done. by apply IH.
Qed.

Lemma sweep_from_sorted (es : list Event.t) (cur : Event.t) :
  StronglySorted starts_before es →
  Forall (λ e, Event.startTime cur ≤ Event.startTime e) es →
  ∃ o rest,
    sweep_from cur es = o :: rest
    ∧ Event.startTime o = Event.startTime cur
    ∧ Sorted Z.le (map Event.startTime (o :: rest)).
Proof.
  revert cur. induction es as [|e es IH]; intros cur Hs Hall; simpl.
  - exists cur, []. repeat split. repeat constructor.
  - apply StronglySorted_inv in Hs as [Hs He].
    apply Forall_cons in Hall as [Hce Hall].
    destruct (isOverlapping cur e).
    + destruct (IH (mergeEvents cur e) Hs) as (o & rest & Heq & Hst & Hso).
      { simpl. rewrite Z.min_l by done. exact Hall. }
      exists o, rest. split; [done|]. split; [|done].
      rewrite Hst. simpl. lia.
    + destruct (IH e Hs He) as (o & rest & Heq & Hst & Hso).
      exists cur, (o :: rest). rewrite Heq. split; [done|]. split; [done|].
      simpl. constructor; [exact Hso|]. constructor. lia.
Qed.

Lemma sweep_sorted (es : list Event.t) :
  sorted_by_start es → Sorted Z.le (map Event.startTime (sweep es)).
Proof.
  intros Hs. apply (@Sorted_StronglySorted _ _ starts_before_trans) in Hs.
  destruct es as [|e es]; [constructor|].
  rewrite sweep_cons.
  apply StronglySorted_inv in Hs as [Hs He].
  destruct (sweep_from_sorted es e Hs He) as (o & rest & -> & _ & Hso). exact Hso.
Qed.

Lemma sorted_concat_runs (cs : list (list Event.t)) :
  StronglySorted starts_before (concat cs) →
  Forall (StronglySorted starts_before) cs.
Proof.
  induction cs as [|c cs IH]; simpl; [constructor|].
  intros Hs. apply StronglySorted_app in Hs as (_ & Hc & Hcs).
  constructor; [done|]. by apply IH.
Qed.

Lemma Forall2_and_r {A B} (P : A → B → Prop) (Q : B → Prop) (l : list A) (k : list B) :
  Forall2 P l k → Forall Q k → Forall2 (λ a b, P a b ∧ Q b) l k.
Proof.
  induction 1 as [|a b l k Hab Hlk IH]; intros HQ; [constructor|].
  apply Forall_cons in HQ as [Hb HQ]. constructor; [done|]. by apply IH.
Qed.

(** C3 (as amended): for a fetched list sorted by start time and split into
    maximal runs in which every event overlaps the interval covered by the
    events of the run before it, the merge returns one event per run, in
    the order of the runs; each carries the id and the start time of the
    event that opened its run, which is the earliest start of the run, and
    the returned start times ascend. *)
Theorem one_event_per_span_cluster (events : list Event.t) (cs : list (list Event.t)) :
  sorted_by_start events →
  concat cs = events →
  span_clusters cs →
  length (sweep events) = length cs
  ∧ Forall2 (λ o c,
       merge_run c = Some o
       ∧ ∃ e, run_head c = Some e
              ∧ Event.id o = Event.id e
              ∧ Event.startTime o = Event.startTime e
              ∧ Forall (λ x, Event.startTime o ≤ Event.startTime x) c)
      (sweep events) cs
  ∧ Sorted Z.le (map Event.startTime (sweep events)).
Proof.
  intros Hsorted <- Hcl.
  pose proof (sweep_span_clusters cs Hcl) as HF.
  split; [by eapply Forall2_length|]. split; [|by apply sweep_sorted].
  apply (@Sorted_StronglySorted _ _ starts_before_trans), sorted_concat_runs in Hsorted.
  eapply Forall2_impl; [exact (Forall2_and_r _ _ _ _ HF Hsorted)|].
  intros o c [Hm Hc]. split; [done|].
  destruct c as [|e rest]; [done|].
  exists e. split; [done|].
  apply StronglySorted_inv in Hc as [_ He].
  pose proof (merge_run_span _ _ Hm) as Hsp. simpl in Hsp.
  assert (Event.startTime o = Event.startTime e) as Hst.
  { change (Event.startTime o) with ((Event.startTime o, Event.endTime o).1).
    rewrite Hsp. by apply span_from_fst_sorted. }
  split; [|split; [done|]].
  - injection Hm as <-. apply foldl_merge_id.
  - rewrite Hst. constructor; [done|exact He].
Qed.

Lemma one_event_per_span_cluster_witness :
  sorted_by_start [workshop; standup; review]
  ∧ span_clusters [[workshop; standup; review]]
  ∧ length (sweep [workshop; standup; review]) = 1%nat.
Proof.
  assert (sorted_by_start [workshop; standup; review]) as Hs.
  { repeat constructor; unfold starts_before; vm_compute; discriminate. }
  assert (span_clusters [[workshop; standup; review]]) as Hc.
  { vm_compute. repeat split; reflexivity. }
  split; [exact Hs|]. split; [exact Hc|].
  exact (proj1 (one_event_per_span_cluster _ [[workshop; standup; review]]
                  Hs eq_refl Hc)).
Defined.

(** C3, as stated, fails: with the glossary's clusters (runs of events
    that overlap their neighbour) a long event followed by two short ones
    that do not touch each other makes two clusters, and the merge returns
    one event. *)
Lemma neighbour_clusters_miscount :
  ¬ (∀ (events : list Event.t) (cs : list (list Event.t)),
       sorted_by_start events →
       concat cs = events →
       neighbour_clusters cs →
       length (sweep events) = length cs).
Proof.
  intros H.
  specialize (H [workshop; standup; review] [[workshop; standup]; [review]]).
  assert (length (sweep [workshop; standup; review]) = 1%nat) as Hone by reflexivity.
  rewrite Hone in H. simpl in H.
  assert (1%nat = 2%nat) as Habs; [|discriminate Habs].
  apply H.
  - repeat constructor; unfold starts_before; vm_compute; discriminate.
  - reflexivity.
  - vm_compute. repeat split; reflexivity.
Qed.

(** ** Separation of the returned events *)

Lemma ends_before_trans : Transitive ends_before.
Proof. intros a b c. unfold ends_before, ordered_range. lia. Qed.

Lemma StronglySorted_lookup_lt {A} (R : relation A) (l : list A) (i j : nat) (a b : A) :
  StronglySorted R l → (i < j)%nat → l !! i = Some a → l !! j = Some b → R a b.
Proof.
  intros Hs. revert i j. induction Hs as [|x l Hs IH Hall]; intros i j Hij Hi Hj.
  - by rewrite lookup_nil in Hi.
  - destruct j as [|j]; [lia|]. simpl in Hj.
    destruct i as [|i]; simpl in Hi.
    + injection Hi as ->. rewrite Forall_forall in Hall. apply Hall.
      by eapply list_elem_of_lookup_2.
    + apply (IH i j); [lia|done..].
Qed.

Lemma sweep_from_separated (es : list Event.t) :
  ∀ cur recent : Event.t,
    ordered_range cur →
    Event.startTime cur ≤ Event.startTime recent →
    Sorted starts_before (recent :: es) →
    Sorted no_tied_instant (recent :: es) →
    Forall ordered_range es →
    ∃ o rest,
      sweep_from cur es = o :: rest
      ∧ Event.startTime o = Event.startTime cur
      ∧ ordered_range o
      ∧ Sorted ends_before (o :: rest).
Proof.
  induction es as [|e es IH]; intros cur recent Hcur Hle Hs Ht Hwf.
  - exists cur, []. simpl. repeat split; [done|]. repeat constructor.
  - apply Sorted_inv in Hs as [Hs Hhd]. apply HdRel_inv in Hhd.
    apply Sorted_inv in Ht as [Ht Htie]. apply HdRel_inv in Htie.
    apply Forall_cons in Hwf as [He Hwf].
    unfold starts_before, no_tied_instant, ordered_range in *.
    simpl. destruct (isOverlapping cur e) eqn:Hov.
    + destruct (IH (mergeEvents cur e) e) as (o & rest & Heq & Hst & Ho & Hso);
        try done; simpl; try lia.
      exists o, rest. split; [done|]. split; [|done]. rewrite Hst. simpl. lia.
    + apply isOverlapping_false in Hov.
      destruct (IH e e) as (o & rest & Heq & Hst & Ho & Hso); try done; try lia.
      exists cur, (o :: rest). rewrite Heq.
      split; [done|]. split; [done|]. split; [done|].
      constructor; [done|]. constructor.
      unfold ends_before, ordered_range. lia.
Qed.

Lemma sweep_separated (events : list Event.t) :
  sorted_by_start events →
  Forall ordered_range events →
  Sorted no_tied_instant events →
  StronglySorted ends_before (sweep events).
Proof.
  intros Hs Hwf Ht. apply (@Sorted_StronglySorted _ _ ends_before_trans).
  destruct events as [|e es]; [constructor|].
  rewrite sweep_cons.
  apply Forall_cons in Hwf as [He Hwf].
  destruct (sweep_from_separated es e e He (Z.le_refl _) Hs Ht Hwf)
    as (o & rest & -> & _ & _ & Hso).
  exact Hso.
Qed.

(** C4 (as amended): when the fetched list is sorted by start time, no
    range is inverted and no event without duration starts at the same
    instant as the event fetched just before it, no two distinct returned
    events overlap. *)
Theorem merged_events_do_not_overlap (events : list Event.t) :
  sorted_by_start events →
  Forall ordered_range events →
  Sorted no_tied_instant events →
  ∀ (i j : nat) (a b : Event.t),
    i ≠ j →
    sweep events !! i = Some a →
    sweep events !! j = Some b →
    isOverlapping a b = false.
Proof.
  intros Hs Hwf Ht i j a b Hij Hi Hj.
  pose proof (sweep_separated events Hs Hwf Ht) as Hsep.
  apply isOverlapping_false.
  destruct (decide (i < j)%nat) as [Hlt|Hge].
  - left. by destruct (StronglySorted_lookup_lt _ _ _ _ _ _ Hsep Hlt Hi Hj).
  - right. assert (j < i)%nat as Hlt by lia.
    by destruct (StronglySorted_lookup_lt _ _ _ _ _ _ Hsep Hlt Hj Hi).
Qed.

Lemma merged_events_do_not_overlap_witness :
  sorted_by_start [evA; evB; meeting3]
  ∧ Forall ordered_range [evA; evB; meeting3]
  ∧ Sorted no_tied_instant [evA; evB; meeting3]
  ∧ sweep [evA; evB; meeting3] !! 0%nat = Some (mergeEvents evA evB)
  ∧ sweep [evA; evB; meeting3] !! 1%nat = Some meeting3
  ∧ isOverlapping (mergeEvents evA evB) meeting3 = false.
Proof.
  assert (sorted_by_start [evA; evB; meeting3]) as Hs.
  { repeat constructor; unfold starts_before; vm_compute; discriminate. }
  assert (Forall ordered_range [evA; evB; meeting3]) as Hwf.
  { repeat constructor; unfold ordered_range; vm_compute; discriminate. }
  assert (Sorted no_tied_instant [evA; evB; meeting3]) as Ht.
  { repeat constructor; unfold no_tied_instant; vm_compute; discriminate. }
  split; [exact Hs|]. split; [exact Hwf|]. split; [exact Ht|].
  split; [reflexivity|]. split; [reflexivity|].
  apply (merged_events_do_not_overlap _ Hs Hwf Ht 0%nat 1%nat); [lia|reflexivity..].
Defined.

(** C4, as stated, fails: a day-long event, an event without duration
    that starts at the same instant and is fetched after it, then an event
    inside the first one.  The list is sorted by start time; the first and
    the third event are both returned and overlap. *)
Lemma returned_events_can_overlap :
  ¬ (∀ events : list Event.t,
       sorted_by_start events →
       ∀ (i j : nat) (a b : Event.t),
         i ≠ j →
         sweep events !! i = Some a →
         sweep events !! j = Some b →
         isOverlapping a b = false).
Proof.
  intros H.
  assert (sorted_by_start [workshop; reminder; lunch_talk]) as Hs.
  { repeat constructor; unfold starts_before; vm_compute; discriminate. }
  specialize (H _ Hs 0%nat 2%nat workshop lunch_talk).
  assert (isOverlapping workshop lunch_talk = true) as Hov by reflexivity.
  rewrite H in Hov; [discriminate Hov|lia|reflexivity|reflexivity].
Qed.

(** The two conditions on the ranges are both needed: with start times
    strictly ascending, one inverted range is enough for two returned
    events to overlap. *)
Lemma inverted_range_breaks_separation :
  Sorted no_tied_instant [workshop; inverted; lunch_talk]
  ∧ sorted_by_start [workshop; inverted; lunch_talk]
  ∧ sweep [workshop; inverted; lunch_talk] = [workshop; inverted; lunch_talk]
  ∧ isOverlapping workshop lunch_talk = true.
Proof.
  split; [|split; [|split; reflexivity]].
  - repeat constructor; unfold no_tied_instant; vm_compute; discriminate.
  - repeat constructor; unfold starts_before; vm_compute; discriminate.
Qed.

(** The overlapping pair of the service's own test: one event from 10:00
    to 11:30 with both titles, in progress, under the first id. *)
Example overlapping_pair_merges :
  sweep [meeting1; meeting2]
  = [ {| Event.id := 1;
         Event.title := "Meeting 1, Meeting 2";
         Event.description := Some " ";
         Event.startTime := on_day 10 0;
         Event.endTime := on_day 11 30;
         Event.status := IN_PROGRESS;
         Event.invitees := [requester_at 11; requester_at 12] |} ].
Proof. reflexivity. Qed.

(** An event alone is returned as it is, and nothing is to be deleted. *)
Example lone_event_untouched :
  sweep [standalone] = [standalone]
  ∧ eventsToDelete [standalone] (sweep [standalone]) = [].
Proof. split; reflexivity. Qed.

(** ** Running the merge against a repository *)

Lemma mergeAllOverlappingEvents_run `{EventRepository Store} (s : Store) (userId : Z) :
  let events := repo_getMany userId s in
  let merged := sweep events in
  mergeAllOverlappingEvents userId s
  = match repo_delete (eventsToDelete events merged) (repo_save merged s) with
    | (Return _, s') => (Return merged, s')
    | (Throw e, s') => (Throw e, s')
    end.
Proof.
  unfold mergeAllOverlappingEvents, removeOriginalEvents, mbind, Async_bind,
    query, command, mret, Async_ret.
  simpl. by destruct (repo_delete _ _) as [[affected|e] s'].
Qed.

Lemma eventsToDelete_spec (events merged : list Event.t) (i : Z) :
  i ∈ eventsToDelete events merged
  ↔ i ∈ map Event.id events ∧ i ∉ map Event.id merged.
Proof. unfold eventsToDelete. rewrite list_elem_of_filter. tauto. Qed.







Lemma nothing_fetched_run `{EventRepository Store} (s : Store) (userId : Z) :
  repo_getMany userId s = [] →
  mergeAllOverlappingEvents userId s
  = match repo_delete [] (repo_save [] s) with
    | (Return _, s') => (Return [], s')
    | (Throw e, s') => (Throw e, s')
    end.
Proof.
  intros Hnone. pose proof (mergeAllOverlappingEvents_run s userId) as Hrun.
  simpl in Hrun. by rewrite Hnone in Hrun.
Qed.

(** C7: for a user without events the query returns nothing, and the
    merge still saves the empty list and calls delete with the empty list
    of ids; the repository rejects an empty delete, so the call throws
    that rejection instead of returning the empty list.  The store is as
    it was. *)
Theorem no_events_ends_in_the_rejected_delete :
  repo_getMany 7 chained_store = []
  ∧ sweep (repo_getMany 7 chained_store) = []
  ∧ eventsToDelete (repo_getMany 7 chained_store)
      (sweep (repo_getMany 7 chained_store)) = []
  ∧ mergeAllOverlappingEvents 7 chained_store
    = (Throw (TypeORMError "Empty criteria(s) are not allowed for the delete method."),
       chained_store).
Proof.
  assert (repo_getMany 7 chained_store = []) as Hnone by (by vm_compute).
  split; [exact Hnone|]. rewrite Hnone. split; [reflexivity|]. split; [reflexivity|].
  by rewrite (nothing_fetched_run chained_store 7 Hnone).
Qed.

(** ** Single-event lookups *)

(** C9: [findOne] asks the repository for the event with that id together
    with its invitees; when there is none it throws the not-found
    exception whose message names the id, otherwise it returns the event
    it was given; the store is not changed. *)
Theorem findOne_found_or_not_found `{EventRepository Store} (s : Store) (id : Z) :
  (repo_findOne {| where_id := id; relations := ["invitees"] |} s = None →
   findOne id s
   = (Throw (NotFoundException ("Event with ID " +:+ pretty id +:+ " not found")), s))
  ∧ (∀ event,
       repo_findOne {| where_id := id; relations := ["invitees"] |} s = Some event →
       findOne id s = (Return event, s)).
Proof.
  unfold findOne, mbind, Async_bind, query, throw, mret, Async_ret.
  split.
  - by intros ->.
  - by intros event ->.
Qed.

Lemma findOne_found_or_not_found_witness :
  (repo_findOne {| where_id := 9; relations := ["invitees"] |} chained_store = None
   ∧ findOne 9 chained_store
     = (Throw (NotFoundException "Event with ID 9 not found"), chained_store))
  ∧ (repo_findOne {| where_id := 2; relations := ["invitees"] |} chained_store
     = Some evB
     ∧ findOne 2 chained_store = (Return evB, chained_store)).
Proof.
  split.
  - split; [by vm_compute|].
    exact (proj1 (findOne_found_or_not_found chained_store 9) ltac:(by vm_compute)).
  - split; [by vm_compute|].
    exact (proj2 (findOne_found_or_not_found chained_store 2) evB ltac:(by vm_compute)).
Defined.





(** ** Invitees *)

Lemma same_object_seen (x : UserObj) (seen : list UserObj) :
  existsb (same_object x) seen = true ↔ obj_ref x ∈ map obj_ref seen.
Proof.
  rewrite existsb_exists, list_elem_of_fmap. unfold same_object. split.
  - intros (y & Hy & Heq). apply N.eqb_eq in Heq. exists y.
    split; [done|]. by apply list_elem_of_In.
  - intros (y & Heq & Hy). exists y. split; [by apply list_elem_of_In|].
    by apply N.eqb_eq.
Qed.

Lemma Set_add_all_refs (xs seen : list UserObj) (r : N) :
  r ∈ map obj_ref (Set_add_all seen xs)
  ↔ r ∈ map obj_ref seen ∨ r ∈ map obj_ref xs.
Proof.
  revert seen. induction xs as [|x xs IH]; intros seen; simpl.
  - rewrite elem_of_nil. tauto.
  - destruct (existsb (same_object x) seen) eqn:E; rewrite IH, elem_of_cons.
    + apply same_object_seen in E. split; [tauto|].
      intros [?|[->|?]]; tauto.
    + rewrite map_app, elem_of_app. simpl. rewrite list_elem_of_singleton. tauto.
Qed.

Lemma Set_add_all_NoDup (xs seen : list UserObj) :
  NoDup (map obj_ref seen) → NoDup (map obj_ref (Set_add_all seen xs)).
Proof.
  revert seen. induction xs as [|x xs IH]; intros seen Hnd; simpl; [done|].
  destruct (existsb (same_object x) seen) eqn:E; apply IH; [done|].
  rewrite map_app. apply NoDup_app. split; [done|]. split.
  - intros r Hr. simpl. rewrite list_elem_of_singleton. intros ->.
    apply same_object_seen in Hr. congruence.
  - simpl. apply NoDup_singleton.
Qed.

(** What [Array.from(new Set(...))] guarantees: the references of both
    arrays, each once. *)
Lemma mergeEvents_invitee_refs (a b : Event.t) :
  NoDup (invitee_refs (mergeEvents a b))
  ∧ ∀ r, r ∈ invitee_refs (mergeEvents a b) ↔ r ∈ invitee_refs a ∨ r ∈ invitee_refs b.
Proof.
  unfold invitee_refs. simpl. unfold Array_from_Set. split.
  - apply Set_add_all_NoDup. constructor.
  - intros r. rewrite Set_add_all_refs, map_app, elem_of_app. simpl.
    rewrite elem_of_nil. tauto.
Qed.

(** The invitee array of a run of two or more events holds the references
    of all its events' arrays, each reference once. *)
Lemma merged_run_invitee_refs (e b : Event.t) (rest : list Event.t) :
  let o := foldl mergeEvents e (b :: rest) in
  NoDup (invitee_refs o)
  ∧ ∀ r, r ∈ invitee_refs o ↔ ∃ x, x ∈ e :: b :: rest ∧ r ∈ invitee_refs x.
Proof.
  simpl.
  assert (∀ (l : list Event.t) (acc : Event.t),
            NoDup (invitee_refs acc) →
            NoDup (invitee_refs (foldl mergeEvents acc l))
            ∧ ∀ r, r ∈ invitee_refs (foldl mergeEvents acc l)
                   ↔ r ∈ invitee_refs acc ∨ ∃ x, x ∈ l ∧ r ∈ invitee_refs x) as Hgen.
  { induction l as [|y l IH]; intros acc Hacc; simpl.
    - split; [done|]. intros r. split; [tauto|].
      intros [?|(x & ?%elem_of_nil & _)]; done.
    - destruct (IH (mergeEvents acc y) (proj1 (mergeEvents_invitee_refs acc y)))
        as [Hnd Hiff].
      split; [done|]. intros r. rewrite Hiff.
      rewrite (proj2 (mergeEvents_invitee_refs acc y) r). split.
      + intros [[?|?]|(x & Hx & Hr)]; [tauto| |].
        * right. exists y. split; [left|done].
        * right. exists x. split; [by right|done].
      + intros [?|(x & [->|Hx]%elem_of_cons & Hr)]; [tauto|tauto|].
        right. eauto. }
  destruct (Hgen rest (mergeEvents e b) (proj1 (mergeEvents_invitee_refs e b)))
    as [Hnd Hiff].
  split; [done|]. intros r. rewrite Hiff, (proj2 (mergeEvents_invitee_refs e b) r).
  split.
  - intros [[?|?]|(x & Hx & Hr)].
    + exists e. split; [left|done].
    + exists b. split; [right; left|done].
    + exists x. split; [by do 2 right|done].
  - intros (x & [->|[->|Hx]%elem_of_cons]%elem_of_cons & Hr); [tauto|tauto|].
    right. eauto.
Qed.

(** C8: two overlapping events of user 1, each fetched with its own
    object for that user.  The merged event's invitee array holds both
    objects: user 1 is in it twice. *)
Theorem merged_invitees_repeat_a_user :
  invitee_ids meeting1 = [1]
  ∧ invitee_ids meeting2 = [1]
  ∧ sweep [meeting1; meeting2] = [mergeEvents meeting1 meeting2]
  ∧ Event.invitees (mergeEvents meeting1 meeting2) = [requester_at 11; requester_at 12]
  ∧ invitee_ids (mergeEvents meeting1 meeting2) = [1; 1]
  ∧ ¬ NoDup (invitee_ids (mergeEvents meeting1 meeting2)).
Proof.
  repeat split; try reflexivity.
  change (invitee_ids (mergeEvents meeting1 meeting2)) with [1; 1].
  intros Hnd. apply NoDup_cons in Hnd as [Hnotin _]. apply Hnotin. left.
Qed.

(** ** The sweep on objects agrees with the sweep on values *)

Lemma assign_field_spec (h : gmap N Event.t) (r1 r2 : N) (e1 e2 : Event.t)
    (rhs : Event.t → Event.t → Event.t) :
  h !! r1 = Some e1 → h !! r2 = Some e2 →
  assign_field r1 r2 rhs h = Some (<[r1 := rhs e1 e2]> h).
Proof. intros H1 H2. unfold assign_field. by rewrite H1, H2. Qed.

(** The six writes amount to one write of the combined record, also when
    both references are the same object. *)
Lemma mergeEvents_obj_spec (h : gmap N Event.t) (r1 r2 : N) (e1 e2 : Event.t) :
  h !! r1 = Some e1 → h !! r2 = Some e2 →
  mergeEvents_obj r1 r2 h = Some (<[r1 := mergeEvents e1 e2]> h).
Proof.
  intros H1 H2. unfold mergeEvents_obj.
  destruct (decide (r1 = r2)) as [->|Hne].
  - assert (e1 = e2) as -> by congruence.
    repeat (erewrite assign_field_spec; [|apply lookup_insert_eq..]; simpl).
    erewrite assign_field_spec; [|done..]. simpl.
    repeat (erewrite assign_field_spec; [|apply lookup_insert_eq..]; simpl).
    rewrite !insert_insert_eq. by destruct e2.
  - erewrite assign_field_spec; [|done..]. simpl.
    repeat (erewrite assign_field_spec;
            [|apply lookup_insert_eq|by rewrite !lookup_insert_ne]; simpl).
    rewrite !insert_insert_eq. by destruct e1.
Qed.

Lemma Forall2_impl_elem_of {A B} (P Q : A → B → Prop) (l : list A) (k : list B) :
  Forall2 P l k → (∀ x y, P x y → x ∈ l → Q x y) → Forall2 Q l k.
Proof.
  induction 1 as [|a b l k Hab Hlk IH]; intros Himp; [constructor|].
  constructor.
  - apply Himp; [done|left].
  - apply IH. intros x y Hxy Hx. apply Himp; [done|by right].
Qed.

Lemma sweep_loop_obj_refines (rest : list N) :
  ∀ (mergedEvents : list N) (cur : N) (h : gmap N Event.t)
    (ec : Event.t) (es : list Event.t),
    NoDup (cur :: rest) →
    h !! cur = Some ec →
    Forall2 (λ r e, h !! r = Some e) rest es →
    ∃ out c h',
      sweep_loop_obj rest mergedEvents (Some cur) h = Some (mergedEvents ++ out, Some c, h')
      ∧ Forall2 (λ r e, h' !! r = Some e) (out ++ [c]) (sweep_from ec es)
      ∧ (∀ r, r ∉ cur :: rest → h' !! r = h !! r)
      ∧ (∀ r, Event.id <$> h' !! r = Event.id <$> h !! r).
Proof.
  induction rest as [|event rest IH]; intros mergedEvents cur h ec es Hnd Hcur Hes.
  - apply Forall2_nil_inv_l in Hes as ->.
    exists [], cur, h. simpl. rewrite app_nil_r. repeat split. by repeat constructor.
  - apply Forall2_cons_inv_l in Hes as (ee & es' & Hee & Hes & ->).
    apply NoDup_cons in Hnd as [Hcur_notin Hnd].
    apply NoDup_cons in Hnd as [Hev_notin Hnd].
    assert (cur ≠ event) as Hne by (intros ->; apply Hcur_notin; left).
    assert (cur ∉ rest) as Hcur_rest by (intros ?; apply Hcur_notin; by right).
    simpl. rewrite Hcur, Hee. simpl.
    destruct (isOverlapping ec ee) eqn:Hov.
    + rewrite (mergeEvents_obj_spec h cur event ec ee Hcur Hee). simpl.
      destruct (IH mergedEvents cur (<[cur := mergeEvents ec ee]> h)
                  (mergeEvents ec ee) es') as (out & c & h' & Hrun & Hout & Hframe & Hid).
      * by apply NoDup_cons.
      * apply lookup_insert_eq.
      * eapply Forall2_impl_elem_of; [exact Hes|].
        intros r e Hre Hr. rewrite lookup_insert_ne; [done|]. by intros ->.
      * exists out, c, h'. split; [done|]. split; [done|]. split.
        -- intros r Hr. rewrite Hframe.
           ++ apply lookup_insert_ne. intros ->. apply Hr. left.
           ++ intros [->|?]%elem_of_cons; apply Hr; [left|by do 2 right].
        -- intros r. rewrite Hid. destruct (decide (cur = r)) as [<-|Hcr].
           ++ by rewrite lookup_insert_eq, Hcur.
           ++ by rewrite lookup_insert_ne.
    + destruct (IH (mergedEvents ++ [cur]) event h ee es')
        as (out & c & h' & Hrun & Hout & Hframe & Hid); [by apply NoDup_cons|done..|].
      exists (cur :: out), c, h'. split; [|split; [|split; [|done]]].
      * simpl. rewrite Hrun. by rewrite <- app_assoc.
      * simpl. constructor; [|done]. rewrite Hframe; [done|].
        intros [->|?]%elem_of_cons; done.
      * intros r Hr. apply Hframe. intros ?. apply Hr. by right.
Qed.

(** On distinct objects the sweep on references returns references to
    exactly the events the sweep on values returns, and no object has
    changed its id: the ids that [removeOriginalEvents] reads from the
    fetched array after the sweep are the fetched ids. *)
Lemma sweep_obj_refines (events : list N) (h : gmap N Event.t) (es : list Event.t) :
  NoDup events →
  deref h events = Some es →
  ∃ out h',
    sweep_obj events h = Some (out, h')
    ∧ deref h' out = Some (sweep es)
    ∧ map Event.id <$> deref h' events = Some (map Event.id es)
    ∧ (∀ r, r ∉ events → h' !! r = h !! r).
Proof.
  intros Hnd Hes. apply mapM_Some in Hes.
  assert (∀ h' : gmap N Event.t,
            (∀ r, Event.id <$> h' !! r = Event.id <$> h !! r) →
            map Event.id <$> deref h' events = Some (map Event.id es)) as Hids.
  { intros h' Hid. clear Hnd. induction Hes as [|r e events es Hr Hes IH]; [done|].
    unfold deref in *. cbn [mapM]. pose proof (Hid r) as Hidr. rewrite Hr in Hidr.
    destruct (h' !! r) as [e'|]; [|done]. simpl in Hidr. injection Hidr as Hidr.
    simpl. destruct (mapM (λ r, h' !! r) events) as [es'|]; [|done].
    simpl in *. injection IH as IH. by rewrite Hidr, IH. }
  destruct Hes as [|cur ec rest es Hcur Hes].
  - exists [], h. by repeat split.
  - destruct (sweep_loop_obj_refines rest [] cur h ec es Hnd Hcur Hes)
      as (out & c & h' & Hrun & Hout & Hframe & Hid).
    exists (out ++ [c]), h'. unfold sweep_obj. simpl. rewrite Hrun. simpl.
    split; [done|]. split; [|split; [by apply Hids|done]].
    rewrite sweep_cons. by apply mapM_Some.
Qed.

(** * Further properties of the service *)

(** ** The overlap predicate *)

(** X1: the overlap predicate does not depend on the order of its two
    arguments, and an event overlaps itself exactly when it lasts for some
    time. *)
Theorem overlap_is_symmetric (a b : Event.t) :
  isOverlapping a b = isOverlapping b a
  ∧ (isOverlapping a a = true ↔ Event.startTime a < Event.endTime a).
Proof.
  split.
  - destruct (isOverlapping b a) eqn:E.
    + apply isOverlapping_true. apply isOverlapping_true in E. lia.
    + apply isOverlapping_false. apply isOverlapping_false in E. lia.
  - rewrite isOverlapping_true. lia.
Qed.

Lemma isOverlapping_grow (a b c : Event.t) :
  isOverlapping a c = true → isOverlapping (mergeEvents a b) c = true.
Proof. rewrite !isOverlapping_true. simpl. lia. Qed.

(** X2: the combined event overlaps every event that one of the two
    combined events overlaps. *)
Theorem combined_event_keeps_overlaps (a b c : Event.t) :
  isOverlapping a c = true ∨ isOverlapping b c = true →
  isOverlapping (mergeEvents a b) c = true.
Proof. rewrite !isOverlapping_true. simpl. lia. Qed.

Lemma combined_event_keeps_overlaps_witness :
  isOverlapping evB evC = true
  ∧ isOverlapping evA evC = false
  ∧ isOverlapping (mergeEvents evA evB) evC = true.
Proof.
  split; [reflexivity|]. split; [reflexivity|].
  apply combined_event_keeps_overlaps. right. reflexivity.
Defined.

(** ** What the sweep keeps *)

Lemma sweep_from_covers (es : list Event.t) :
  ∀ cur : Event.t,
    (∃ o rest, sweep_from cur es = o :: rest ∧ within cur o)
    ∧ (∀ e, e ∈ es → ∃ o, o ∈ sweep_from cur es ∧ within e o).
Proof.
  unfold within.
  induction es as [|e es IH]; intros cur; simpl.
  - split; [exists cur, []; split; [done|lia]|].
    by intros e ?%elem_of_nil.
  - destruct (isOverlapping cur e).
    + destruct (IH (mergeEvents cur e)) as [(o & rest & Heq & Ho) Hes].
      simpl in Ho. split.
      * exists o, rest. split; [done|lia].
      * intros x [->|Hx]%elem_of_cons; [|by apply Hes].
        exists o. rewrite Heq. split; [left|lia].
    + destruct (IH e) as [(o & rest & Heq & Ho) Hes]. split.
      * exists cur, (sweep_from e es). split; [done|lia].
      * intros x [->|Hx]%elem_of_cons.
        -- exists o. rewrite Heq. split; [right; left|done].
        -- destruct (Hes x Hx) as (o' & Ho' & Hw). exists o'. split; [by right|done].
Qed.

Lemma sweep_from_endpoints (es : list Event.t) :
  ∀ (cur o : Event.t),
    o ∈ sweep_from cur es →
    (Event.startTime o = Event.startTime cur
     ∨ ∃ e, e ∈ es ∧ Event.startTime o = Event.startTime e)
    ∧ (Event.endTime o = Event.endTime cur
       ∨ ∃ e, e ∈ es ∧ Event.endTime o = Event.endTime e).
Proof.
  induction es as [|e es IH]; intros cur o; simpl.
  - intros ->%list_elem_of_singleton. by split; left.
  - destruct (isOverlapping cur e).
    + intros Ho. destruct (IH _ _ Ho) as [Hs He]. simpl in Hs, He. split.
      * destruct Hs as [Hs|(x & Hx & Hs)]; [|right; exists x; split; [by right|done]].
        destruct (Z.min_spec (Event.startTime cur) (Event.startTime e)) as [[_ Hm]|[_ Hm]];
          rewrite Hm in Hs; [by left|]. right. exists e. split; [left|done].
      * destruct He as [He|(x & Hx & He)]; [|right; exists x; split; [by right|done]].
        destruct (Z.max_spec (Event.endTime cur) (Event.endTime e)) as [[_ Hm]|[_ Hm]];
          rewrite Hm in He; [|by left]. right. exists e. split; [left|done].
    + intros [->|Ho]%elem_of_cons; [by split; left|].
      destruct (IH _ _ Ho) as [Hs He]. split.
      * right. destruct Hs as [Hs|(x & Hx & Hs)]; [exists e; split; [left|done]|].
        exists x. split; [by right|done].
      * right. destruct He as [He|(x & Hx & He)]; [exists e; split; [left|done]|].
        exists x. split; [by right|done].
Qed.

(** X3: whatever the order of the fetched list, the range of every
    fetched event lies within the range of some returned event, and every
    returned start time and end time is the start time, respectively the
    end time, of a fetched event. *)
Theorem returned_ranges_cover_the_fetched (events : list Event.t) :
  (∀ e, e ∈ events → ∃ o, o ∈ sweep events ∧ within e o)
  ∧ (∀ o, o ∈ sweep events →
       (∃ e, e ∈ events ∧ Event.startTime o = Event.startTime e)
       ∧ (∃ e, e ∈ events ∧ Event.endTime o = Event.endTime e)).
Proof.
  destruct events as [|e0 es]; [split; by intros ? ?%elem_of_nil|].
  rewrite sweep_cons. split.
  - destruct (sweep_from_covers es e0) as [(o & rest & Heq & Ho) Hes].
    intros e [->|He]%elem_of_cons; [|by apply Hes].
    exists o. rewrite Heq. split; [left|done].
  - intros o Ho. destruct (sweep_from_endpoints es e0 o Ho) as [Hs He]. split.
    + destruct Hs as [Hs|(x & Hx & Hs)]; [exists e0; split; [left|done]|].
      exists x. split; [by right|done].
    + destruct He as [He|(x & Hx & He)]; [exists e0; split; [left|done]|].
      exists x. split; [by right|done].
Qed.

Lemma sweep_from_ids_sublist (es : list Event.t) (cur : Event.t) :
  map Event.id (sweep_from cur es) `sublist_of` Event.id cur :: map Event.id es.
Proof.
  revert cur. induction es as [|e es IH]; intros cur; simpl.
  - done.
  - destruct (isOverlapping cur e).
    + specialize (IH (mergeEvents cur e)). simpl in IH.
      inversion IH as [|x l1 l2 Hsub|x l1 l2 Hsub]; subst.
      * apply sublist_skip. by apply sublist_cons.
      * by do 2 apply sublist_cons.
    + simpl. apply sublist_skip, IH.
Qed.

Lemma sweep_from_head_id (es : list Event.t) (cur : Event.t) :
  ∃ o rest, sweep_from cur es = o :: rest ∧ Event.id o = Event.id cur.
Proof.
  revert cur. induction es as [|e es IH]; intros cur; simpl.
  - by exists cur, [].
  - destruct (isOverlapping cur e).
    + destruct (IH (mergeEvents cur e)) as (o & rest & Heq & Hid). by exists o, rest.
    + by exists cur, (sweep_from e es).
Qed.

Lemma sweep_ids_sublist (events : list Event.t) :
  map Event.id (sweep events) `sublist_of` map Event.id events.
Proof.
  destruct events as [|e es]; [done|]. rewrite sweep_cons. apply sweep_from_ids_sublist.
Qed.

(** X4: the ids of the returned events form a subsequence of the fetched
    ids (ids that were fetched, in the fetched order), and the first
    returned id is the first fetched id. *)
Theorem returned_ids_are_a_subsequence (events : list Event.t) :
  map Event.id (sweep events) `sublist_of` map Event.id events
  ∧ head (map Event.id (sweep events)) = head (map Event.id events).
Proof.
  split; [apply sweep_ids_sublist|].
  destruct events as [|e es]; [done|]. rewrite sweep_cons.
  destruct (sweep_from_head_id es e) as (o & rest & -> & Hid). simpl. by rewrite Hid.
Qed.

(** ** Counting what is returned and what is deleted *)

Lemma filter_iff_elem_of {A} (P Q : A → Prop) `{!∀ x, Decision (P x)}
    `{!∀ x, Decision (Q x)} (l : list A) :
  (∀ x, x ∈ l → P x ↔ Q x) → filter P l = filter Q l.
Proof.
  induction l as [|y l IH]; intros Hiff; [done|].
  rewrite !filter_cons.
  assert (filter P l = filter Q l) as ->.
  { apply IH. intros x Hx. apply Hiff. by right. }
  pose proof (Hiff y ltac:(left)) as Hy.
  destruct (decide (P y)), (decide (Q y)); tauto.
Qed.

Lemma filter_not_in_sublist_length (l k : list Z) :
  k `sublist_of` l → NoDup l →
  (length (filter (λ i, i ∉ k) l) + length k = length l)%nat.
Proof.
  induction 1 as [|x k l Hsub IH|x k l Hsub IH]; intros Hnd; [done|..];
    apply NoDup_cons in Hnd as [Hx Hnd].
  - rewrite filter_cons_False by (intros Hno; apply Hno; left).
    rewrite (filter_iff_elem_of (λ i, i ∉ x :: k) (λ i, i ∉ k) l).
    + simpl. rewrite <- (IH Hnd). lia.
    + intros y Hy. rewrite elem_of_cons.
      assert (y ≠ x) by (by intros ->). tauto.
  - assert (x ∉ k) by (intros ?; apply Hx; by eapply elem_of_sublist).
    rewrite filter_cons_True by done. simpl. by rewrite (IH Hnd).
Qed.

(** X5: when the fetched ids are pairwise different, every fetched id is
    either the id of a returned event or one of the ids handed to the
    delete, never both, the ids handed to the delete are pairwise
    different, and their number plus the number of returned events is the
    number of fetched events. *)
Theorem deleted_and_returned_split_the_fetched (events : list Event.t) :
  NoDup (map Event.id events) →
  let merged := sweep events in
  let deleted := eventsToDelete events merged in
  (length deleted + length merged = length events)%nat
  ∧ NoDup deleted
  ∧ NoDup (map Event.id merged)
  ∧ (∀ i, i ∈ map Event.id events →
       (i ∈ map Event.id merged ∧ (i ∉ deleted))
       ∨ ((i ∉ map Event.id merged) ∧ i ∈ deleted)).
Proof.
  intros Hnd merged deleted. subst deleted merged.
  pose proof (sweep_ids_sublist events) as Hsub.
  split; [|split; [|split]].
  - unfold eventsToDelete.
    pose proof (filter_not_in_sublist_length _ _ Hsub Hnd) as Hlen.
    rewrite !length_map in Hlen. exact Hlen.
  - unfold eventsToDelete. by apply NoDup_filter.
  - by eapply sublist_NoDup.
  - intros i Hi. destruct (decide (i ∈ map Event.id (sweep events))) as [Hin|Hout].
    + left. split; [done|]. rewrite eventsToDelete_spec. tauto.
    + right. split; [done|]. by apply eventsToDelete_spec.
Qed.

Lemma deleted_and_returned_split_the_fetched_witness :
  NoDup (map Event.id [evA; evB; evC; standalone])
  ∧ (length (eventsToDelete [evA; evB; evC; standalone]
               (sweep [evA; evB; evC; standalone]))
     + length (sweep [evA; evB; evC; standalone]) = 4)%nat.
Proof.
  assert (NoDup (map Event.id [evA; evB; evC; standalone])) as Hnd
    by (apply (bool_decide_unpack _); by vm_compute).
  split; [exact Hnd|].
  exact (proj1 (deleted_and_returned_split_the_fetched _ Hnd)).
Defined.

(** ** Input that needs no merging *)

Lemma sweep_from_apart (es : list Event.t) (cur : Event.t) :
  Sorted apart (cur :: es) → sweep_from cur es = cur :: es.
Proof.
  revert cur. induction es as [|e es IH]; intros cur Hs; simpl; [done|].
  apply Sorted_inv in Hs as [Hs Hhd]. apply HdRel_inv in Hhd.
  unfold apart in Hhd. rewrite Hhd. by rewrite IH.
Qed.

Lemma sweep_apart (events : list Event.t) :
  Sorted apart events → sweep events = events.
Proof.
  destruct events as [|e es]; [done|]. rewrite sweep_cons. apply sweep_from_apart.
Qed.

Lemma eventsToDelete_same (events : list Event.t) : eventsToDelete events events = [].
Proof.
  unfold eventsToDelete.
  assert (∀ l ids : list Z, (∀ x, x ∈ l → x ∈ ids) → filter (λ i, i ∉ ids) l = [])
    as Hgen.
  { induction l as [|y l IH]; intros ids Hsub; [done|].
    rewrite filter_cons_False by (intros Hno; apply Hno, Hsub; left).
    apply IH. intros x Hx. apply Hsub. by right. }
  by apply Hgen.
Qed.

(** X6: when no fetched event overlaps the one fetched right after it,
    the sweep returns the fetched list as it is and there is no id to
    delete; the merge saves exactly the fetched list and calls delete
    with the empty list of ids, so it returns the fetched list only when
    the repository accepts an empty delete and otherwise throws the
    repository's rejection. *)
Theorem nothing_to_merge_deletes_the_empty_list `{EventRepository Store}
    (s : Store) (userId : Z) :
  Sorted apart (repo_getMany userId s) →
  sweep (repo_getMany userId s) = repo_getMany userId s
  ∧ eventsToDelete (repo_getMany userId s) (sweep (repo_getMany userId s)) = []
  ∧ mergeAllOverlappingEvents userId s
    = match repo_delete [] (repo_save (repo_getMany userId s) s) with
      | (Return _, s') => (Return (repo_getMany userId s), s')
      | (Throw e, s') => (Throw e, s')
      end.
Proof.
  intros Hap. pose proof (sweep_apart _ Hap) as Hsame.
  split; [done|]. split.
  - rewrite Hsame. apply eventsToDelete_same.
  - rewrite mergeAllOverlappingEvents_run. simpl.
    by rewrite Hsame, eventsToDelete_same.
Qed.

Lemma nothing_to_merge_deletes_the_empty_list_witness :
  Sorted apart (repo_getMany 1 touching_store)
  ∧ sweep (repo_getMany 1 touching_store) = [meeting1; meeting3]
  ∧ (mergeAllOverlappingEvents 1 touching_store).1
    = Throw (TypeORMError "Empty criteria(s) are not allowed for the delete method.").
Proof.
  assert (Sorted apart (repo_getMany 1 touching_store)) as Hap.
  { vm_compute. repeat constructor. }
  split; [exact Hap|].
  destruct (nothing_to_merge_deletes_the_empty_list touching_store 1 Hap)
    as (Hsame & _ & Hrun).
  split; [rewrite Hsame; by vm_compute|].
  rewrite Hrun. by vm_compute.
Defined.

Lemma ends_before_apart (l : list Event.t) : Sorted ends_before l → Sorted apart l.
Proof.
  induction 1 as [|a l Hs IH Hhd]; constructor; [done|].
  destruct Hhd as [|b l [Hab _]]; constructor.
  apply isOverlapping_false. by left.
Qed.

(** X7: under the conditions that keep the returned events apart (sorted
    by start time, no inverted range, no event without duration starting
    together with the event fetched before it), merging the returned
    events once more returns them unchanged, and that second run has no id
    to delete. *)
Theorem merging_again_changes_nothing (events : list Event.t) :
  sorted_by_start events →
  Forall ordered_range events →
  Sorted no_tied_instant events →
  sweep (sweep events) = sweep events
  ∧ eventsToDelete (sweep events) (sweep (sweep events)) = [].
Proof.
  intros Hs Hwf Ht.
  assert (sweep (sweep events) = sweep events) as Hsame.
  { apply sweep_apart, ends_before_apart, StronglySorted_Sorted.
    by apply sweep_separated. }
  split; [done|]. rewrite Hsame. apply eventsToDelete_same.
Qed.

Lemma merging_again_changes_nothing_witness :
  sorted_by_start [evA; evB; meeting3]
  ∧ Forall ordered_range [evA; evB; meeting3]
  ∧ Sorted no_tied_instant [evA; evB; meeting3]
  ∧ sweep (sweep [evA; evB; meeting3]) = sweep [evA; evB; meeting3].
Proof.
  assert (sorted_by_start [evA; evB; meeting3]) as Hs.
  { repeat constructor; unfold starts_before; vm_compute; discriminate. }
  assert (Forall ordered_range [evA; evB; meeting3]) as Hwf.
  { repeat constructor; unfold ordered_range; vm_compute; discriminate. }
  assert (Sorted no_tied_instant [evA; evB; meeting3]) as Ht.
  { repeat constructor; unfold no_tied_instant; vm_compute; discriminate. }
  split; [exact Hs|]. split; [exact Hwf|]. split; [exact Ht|].
  exact (proj1 (merging_again_changes_nothing _ Hs Hwf Ht)).
Defined.

(** ** Shape of the result *)

Lemma sweep_from_untouched_or_merged (es : list Event.t) :
  ∀ cur o : Event.t,
    o ∈ sweep_from cur es →
    o = cur ∨ o ∈ es
    ∨ (Event.status o = IN_PROGRESS ∧ is_Some (Event.description o)).
Proof.
  induction es as [|e es IH]; intros cur o; simpl.
  - intros ->%list_elem_of_singleton. by left.
  - destruct (isOverlapping cur e).
    + intros Ho. destruct (IH _ _ Ho) as [->|[Hin|Hm]].
      * right; right. split; [done|]. by eexists.
      * right; left. by right.
      * by do 2 right.
    + intros [->|Ho]%elem_of_cons; [by left|].
      destruct (IH _ _ Ho) as [->|[Hin|Hm]].
      * right; left; left.
      * right; left. by right.
      * by do 2 right.
Qed.

(** X8: the merge returns no event exactly when none was fetched, never
    more events than were fetched, and the first returned event carries
    the id of the first fetched event. *)
Theorem returned_list_is_no_longer (events : list Event.t) :
  (sweep events = [] ↔ events = [])
  ∧ (length (sweep events) ≤ length events)%nat
  ∧ (∀ e rest, events = e :: rest →
       ∃ o out, sweep events = o :: out ∧ Event.id o = Event.id e).
Proof.
  split; [|split].
  - destruct events as [|e es]; [done|]. rewrite sweep_cons.
    destruct (sweep_from_head_id es e) as (o & rest & -> & _). done.
  - pose proof (sublist_length _ _ (sweep_ids_sublist events)) as Hlen.
    by rewrite !length_map in Hlen.
  - intros e rest ->. rewrite sweep_cons. apply sweep_from_head_id.
Qed.

(** X9: every returned event is either one of the fetched events, exactly
    as it was fetched, or an event in progress that has a description. *)
Theorem returned_event_untouched_or_in_progress (events : list Event.t) (o : Event.t) :
  o ∈ sweep events →
  o ∈ events ∨ (Event.status o = IN_PROGRESS ∧ is_Some (Event.description o)).
Proof.
  destruct events as [|e es]; [by intros ?%elem_of_nil|].
  rewrite sweep_cons. intros Ho.
  destruct (sweep_from_untouched_or_merged es e o Ho) as [->|[Hin|Hm]].
  - left; left.
  - left. by right.
  - by right.
Qed.

Lemma returned_event_untouched_or_in_progress_witness :
  standalone ∈ sweep [evA; evB; standalone]
  ∧ (standalone ∈ [evA; evB; standalone]
     ∨ (Event.status standalone = IN_PROGRESS
        ∧ is_Some (Event.description standalone))).
Proof.
  assert (standalone ∈ sweep [evA; evB; standalone]) as Hin.
  { change (sweep [evA; evB; standalone]) with [mergeEvents evA evB; standalone].
    right; left. }
  split; [exact Hin|].
  exact (returned_event_untouched_or_in_progress _ _ Hin).
Defined.

Lemma sweep_from_ordered (es : list Event.t) (cur : Event.t) :
  ordered_range cur → Forall ordered_range es →
  Forall ordered_range (sweep_from cur es).
Proof.
  revert cur. induction es as [|e es IH]; intros cur Hcur Hes; simpl.
  - by constructor.
  - apply Forall_cons in Hes as [He Hes]. destruct (isOverlapping cur e).
    + apply IH; [|done]. unfold ordered_range in *. simpl. lia.
    + constructor; [done|]. by apply IH.
Qed.

(** X10: when no fetched range is inverted, no returned range is. *)
Theorem returned_ranges_stay_ordered (events : list Event.t) :
  Forall ordered_range events → Forall ordered_range (sweep events).
Proof.
  destruct events as [|e es]; [done|]. rewrite sweep_cons.
  intros [He Hes]%Forall_cons. by apply sweep_from_ordered.
Qed.

Lemma returned_ranges_stay_ordered_witness :
  Forall ordered_range [evA; evB; evC]
  ∧ Forall ordered_range (sweep [evA; evB; evC]).
Proof.
  assert (Forall ordered_range [evA; evB; evC]) as Hwf.
  { repeat constructor; unfold ordered_range; vm_compute; discriminate. }
  split; [exact Hwf|]. exact (returned_ranges_stay_ordered _ Hwf).
Defined.

(** ** Runs of overlapping neighbours *)

Lemma absorb_neighbour_run (rest more : list Event.t) :
  ∀ cur recent : Event.t,
    within recent cur →
    neighbour_run (recent :: rest) →
    ∃ cur', sweep_from cur (rest ++ more) = sweep_from cur' more.
Proof.
  induction rest as [|y rest IH]; intros cur recent Hw Hrun.
  - by exists cur.
  - destruct Hrun as [Hov Hrun]. apply isOverlapping_true in Hov.
    assert (isOverlapping cur y = true) as Hcy.
    { apply isOverlapping_true. unfold within in Hw. lia. }
    simpl. rewrite Hcy. apply (IH (mergeEvents cur y) y); [|done].
    unfold within. simpl. lia.
Qed.

Lemma sweep_from_neighbour_runs (cs : list (list Event.t)) :
  ∀ cur : Event.t,
    Forall neighbour_run cs →
    (length (sweep_from cur (concat cs)) ≤ 1 + length cs)%nat.
Proof.
  induction cs as [|c cs IH]; intros cur Hcs; simpl; [lia|].
  apply Forall_cons in Hcs as [Hc Hcs].
  destruct c as [|x rest]; [done|]. simpl.
  destruct (isOverlapping cur x).
  - destruct (absorb_neighbour_run rest (concat cs) (mergeEvents cur x) x) as [cur' ->];
      [unfold within; simpl; lia|done|].
    specialize (IH cur' Hcs). lia.
  - destruct (absorb_neighbour_run rest (concat cs) x x) as [cur' ->];
      [unfold within; lia|done|].
    specialize (IH cur' Hcs). simpl. lia.
Qed.

(** X11: however the fetched list is cut into runs in which every event
    overlaps the one fetched right after it, the merge returns at most one
    event per run. *)
Theorem at_most_one_event_per_neighbour_run (events : list Event.t)
    (cs : list (list Event.t)) :
  concat cs = events →
  Forall neighbour_run cs →
  (length (sweep events) ≤ length cs)%nat.
Proof.
  intros <- Hcs. destruct cs as [|c cs]; [done|].
  apply Forall_cons in Hcs as [Hc Hcs].
  destruct c as [|x rest]; [done|].
  change (concat ((x :: rest) :: cs)) with (x :: (rest ++ concat cs)).
  rewrite sweep_cons.
  destruct (absorb_neighbour_run rest (concat cs) x x) as [cur' ->];
    [unfold within; lia|done|].
  pose proof (sweep_from_neighbour_runs cs cur' Hcs). simpl. lia.
Qed.

Lemma at_most_one_event_per_neighbour_run_witness :
  Forall neighbour_run [[workshop; standup]; [review]]
  ∧ (length (sweep [workshop; standup; review]) ≤ 2)%nat.
Proof.
  assert (Forall neighbour_run [[workshop; standup]; [review]]) as Hcs.
  { repeat constructor. }
  split; [exact Hcs|].
  exact (at_most_one_event_per_neighbour_run _ [[workshop; standup]; [review]]
           eq_refl Hcs).
Defined.

(** ** Titles and descriptions of a run *)

Lemma concat_absorb (sep a b : string) (l : list string) :
  String.concat sep ((a +:+ sep +:+ b) :: l) = String.concat sep (a :: b :: l).
Proof.
  destruct l as [|y l]; [done|].
  change (String.concat sep ((a +:+ sep +:+ b) :: y :: l))
    with ((a +:+ sep +:+ b) +:+ sep +:+ String.concat sep (y :: l)).
  change (String.concat sep (a :: b :: y :: l))
    with (a +:+ sep +:+ (b +:+ sep +:+ String.concat sep (y :: l))).
  by rewrite !append_assoc.
Qed.

Lemma foldl_merge_join (f : Event.t → string) (sep : string) :
  (∀ a b, f (mergeEvents a b) = f a +:+ sep +:+ f b) →
  ∀ (rest : list Event.t) (e : Event.t),
    f (foldl mergeEvents e rest) = String.concat sep (map f (e :: rest)).
Proof.
  intros Hf. induction rest as [|b rest IH]; intros e; [done|].
  change (foldl mergeEvents e (b :: rest)) with (foldl mergeEvents (mergeEvents e b) rest).
  rewrite IH. change (map f (mergeEvents e b :: rest)) with (f (mergeEvents e b) :: map f rest).
  rewrite Hf. apply concat_absorb.
Qed.

Lemma foldl_merge_last (rest : list Event.t) (e b : Event.t) :
  ∃ acc y, foldl mergeEvents e (b :: rest) = mergeEvents acc y.
Proof.
  revert e b. induction rest as [|c rest IH]; intros e b.
  - by exists e, b.
  - apply (IH (mergeEvents e b) c).
Qed.

(** X12: the title of the event returned for a run is the titles of the
    run's events in fetched order joined with ", "; when the run has two
    or more events its description is their descriptions (an absent one
    read as empty) joined with single spaces. *)
Theorem merged_texts_join_the_run (events : list Event.t) (cs : list (list Event.t)) :
  concat cs = events →
  span_clusters cs →
  Forall2 (λ o c,
     Event.title o = String.concat ", " (map Event.title c)
     ∧ ((1 < length c)%nat →
        Event.description o
        = Some (String.concat " " (map (λ e, default "" (Event.description e)) c))))
    (sweep events) cs.
Proof.
  intros <- Hcl. eapply Forall2_impl; [by apply sweep_span_clusters|].
  intros o c Hm. destruct c as [|e rest]; [done|]. injection Hm as <-. split.
  - by apply (foldl_merge_join Event.title ", ").
  - intros Hlen. destruct rest as [|b rest]; [simpl in Hlen; lia|].
    rewrite <- (foldl_merge_join (λ e, default "" (Event.description e)) " ").
    + destruct (foldl_merge_last rest e b) as (acc & y & ->). simpl.
      by rewrite !or_empty_default.
    + intros x y. simpl. by rewrite !or_empty_default.
Qed.

Lemma merged_texts_join_the_run_witness :
  span_clusters [[evA; evB; evC]; [standalone]]
  ∧ Forall2 (λ o c, Event.title o = String.concat ", " (map Event.title c))
      (sweep [evA; evB; evC; standalone]) [[evA; evB; evC]; [standalone]].
Proof.
  assert (span_clusters [[evA; evB; evC]; [standalone]]) as Hcl.
  { vm_compute. repeat split; try reflexivity. intros [H1 H2]. discriminate H1. }
  split; [exact Hcl|].
  eapply Forall2_impl;
    [exact (merged_texts_join_the_run _ [[evA; evB; evC]; [standalone]] eq_refl Hcl)|].
  intros o c [Ht _]. exact Ht.
Defined.

(** ** Invitees of the returned events *)

Lemma Set_add_all_elem (xs seen : list UserObj) (u : UserObj) :
  u ∈ Set_add_all seen xs → u ∈ seen ∨ u ∈ xs.
Proof.
  revert seen. induction xs as [|x xs IH]; intros seen; simpl; [by left|].
  destruct (existsb (same_object x) seen); intros [Hu|Hu]%IH.
  - by left.
  - right. by right.
  - apply elem_of_app in Hu as [Hu|Hu]; [by left|].
    apply list_elem_of_singleton in Hu as ->. right. left.
  - right. by right.
Qed.

Lemma Set_add_all_sublist (xs seen : list UserObj) :
  ∃ k, Set_add_all seen xs = seen ++ k ∧ k `sublist_of` xs.
Proof.
  revert seen. induction xs as [|x xs IH]; intros seen; simpl.
  - exists []. by rewrite app_nil_r.
  - destruct (existsb (same_object x) seen).
    + destruct (IH seen) as (k & -> & Hk). exists k. split; [done|]. by apply sublist_cons.
    + destruct (IH (seen ++ [x])) as (k & -> & Hk). exists (x :: k).
      rewrite <- app_assoc. split; [done|]. by apply sublist_skip.
Qed.

Lemma Set_add_all_distinct (xs seen : list UserObj) :
  NoDup (map obj_ref (seen ++ xs)) → Set_add_all seen xs = seen ++ xs.
Proof.
  revert seen. induction xs as [|x xs IH]; intros seen Hnd; simpl.
  - by rewrite app_nil_r.
  - destruct (existsb (same_object x) seen) eqn:E.
    + apply same_object_seen in E. rewrite map_app in Hnd.
      apply NoDup_app in Hnd as (_ & Hdisj & _).
      exfalso. apply (Hdisj _ E). simpl. left.
    + rewrite IH; rewrite <- app_assoc; done.
Qed.

(** X13: when the two events are combined, the invitee array of the
    result lists objects of the first event's array and then of the
    second's, in their order; when all these objects are different
    references, the result is the first array followed by the second. *)
Theorem combined_invitees_keep_their_order (a b : Event.t) :
  Event.invitees (mergeEvents a b) `sublist_of` Event.invitees a ++ Event.invitees b
  ∧ (NoDup (map obj_ref (Event.invitees a ++ Event.invitees b)) →
     Event.invitees (mergeEvents a b) = Event.invitees a ++ Event.invitees b).
Proof.
  simpl. unfold Array_from_Set. split.
  - destruct (Set_add_all_sublist (Event.invitees a ++ Event.invitees b) [])
      as (k & -> & Hk). done.
  - intros Hnd. by rewrite Set_add_all_distinct.
Qed.

Lemma combined_invitees_keep_their_order_witness :
  NoDup (map obj_ref (Event.invitees evA ++ Event.invitees evB))
  ∧ Event.invitees (mergeEvents evA evB) = [requester_at 101; requester_at 102].
Proof.
  assert (NoDup (map obj_ref (Event.invitees evA ++ Event.invitees evB))) as Hnd
    by (apply (bool_decide_unpack _); by vm_compute).
  split; [exact Hnd|].
  exact (proj2 (combined_invitees_keep_their_order evA evB) Hnd).
Defined.

Lemma sweep_from_invitees_kept (es : list Event.t) :
  ∀ cur : Event.t,
    (∃ o rest, sweep_from cur es = o :: rest
               ∧ ∀ r, r ∈ invitee_refs cur → r ∈ invitee_refs o)
    ∧ (∀ e, e ∈ es →
         ∃ o, o ∈ sweep_from cur es ∧ ∀ r, r ∈ invitee_refs e → r ∈ invitee_refs o).
Proof.
  induction es as [|e es IH]; intros cur; simpl.
  - split; [by exists cur, []|]. by intros e ?%elem_of_nil.
  - destruct (isOverlapping cur e).
    + destruct (IH (mergeEvents cur e)) as [(o & rest & Heq & Ho) Hes].
      pose proof (proj2 (mergeEvents_invitee_refs cur e)) as Hm. split.
      * exists o, rest. split; [done|]. intros r Hr. apply Ho, Hm. by left.
      * intros x [->|Hx]%elem_of_cons; [|by apply Hes].
        exists o. rewrite Heq. split; [left|]. intros r Hr. apply Ho, Hm. by right.
    + destruct (IH e) as [(o & rest & Heq & Ho) Hes]. split.
      * by exists cur, (sweep_from e es).
      * intros x [->|Hx]%elem_of_cons.
        -- exists o. rewrite Heq. split; [right; left|done].
        -- destruct (Hes x Hx) as (o' & Ho' & Hr). exists o'. split; [by right|done].
Qed.

Lemma sweep_from_invitees_fetched (es : list Event.t) :
  ∀ (cur o : Event.t) (u : UserObj),
    o ∈ sweep_from cur es → u ∈ Event.invitees o →
    u ∈ Event.invitees cur ∨ ∃ e, e ∈ es ∧ u ∈ Event.invitees e.
Proof.
  induction es as [|e es IH]; intros cur o u; simpl.
  - intros ->%list_elem_of_singleton. by left.
  - destruct (isOverlapping cur e).
    + intros Ho Hu. destruct (IH _ _ _ Ho Hu) as [Hm|(x & Hx & Hux)].
      * simpl in Hm. apply Set_add_all_elem in Hm as [?%elem_of_nil|Hm]; [done|].
        apply elem_of_app in Hm as [Hm|Hm]; [by left|].
        right. exists e. split; [left|done].
      * right. exists x. split; [by right|done].
    + intros [->|Ho]%elem_of_cons Hu; [by left|].
      right. destruct (IH _ _ _ Ho Hu) as [Hm|(x & Hx & Hux)].
      * exists e. split; [left|done].
      * exists x. split; [by right|done].
Qed.

(** X14: no invitee is lost and none is made up: for every fetched event
    some returned event holds every object reference of its invitee
    array, and every object in a returned invitee array comes from the
    invitee array of a fetched event. *)
Theorem invitees_neither_lost_nor_made_up (events : list Event.t) :
  (∀ e, e ∈ events →
     ∃ o, o ∈ sweep events ∧ ∀ r, r ∈ invitee_refs e → r ∈ invitee_refs o)
  ∧ (∀ o u, o ∈ sweep events → u ∈ Event.invitees o →
       ∃ e, e ∈ events ∧ u ∈ Event.invitees e).
Proof.
  destruct events as [|e0 es].
  - split; [by intros ? ?%elem_of_nil|]. by intros ? ? ?%elem_of_nil.
  - rewrite sweep_cons. split.
    + destruct (sweep_from_invitees_kept es e0) as [(o & rest & Heq & Ho) Hes].
      intros e [->|He]%elem_of_cons; [|by apply Hes].
      exists o. rewrite Heq. split; [left|done].
    + intros o u Ho Hu.
      destruct (sweep_from_invitees_fetched es e0 o u Ho Hu) as [Hm|(x & Hx & Hux)].
      * exists e0. split; [left|done].
      * exists x. split; [by right|done].
Qed.

(** ** Which objects the sweep writes *)

Lemma sublist_cons_skip_2 {A} (l k : list A) (x y : A) :
  l `sublist_of` x :: k → l `sublist_of` x :: y :: k.
Proof.
  inversion 1 as [|z l1 l2 Hsub|z l1 l2 Hsub]; subst.
  - apply sublist_skip. by apply sublist_cons.
  - by do 2 apply sublist_cons.
Qed.

Lemma sweep_loop_obj_frame (rest : list N) :
  ∀ (mergedEvents : list N) (cur : N) (h : gmap N Event.t)
    (ec : Event.t) (es : list Event.t),
    NoDup (cur :: rest) →
    h !! cur = Some ec →
    Forall2 (λ r e, h !! r = Some e) rest es →
    ∃ out c h',
      sweep_loop_obj rest mergedEvents (Some cur) h = Some (mergedEvents ++ out, Some c, h')
      ∧ Forall2 (λ r e, h' !! r = Some e) (out ++ [c]) (sweep_from ec es)
      ∧ head (out ++ [c]) = Some cur
      ∧ out ++ [c] `sublist_of` cur :: rest
      ∧ (∀ r, r ∉ out ++ [c] → h' !! r = h !! r)
      ∧ (∀ r, Event.id <$> h' !! r = Event.id <$> h !! r).
Proof.
  induction rest as [|event rest IH]; intros mergedEvents cur h ec es Hnd Hcur Hes.
  - apply Forall2_nil_inv_l in Hes as ->.
    exists [], cur, h. simpl. rewrite app_nil_r.
    repeat split; [by repeat constructor|done].
  - apply Forall2_cons_inv_l in Hes as (ee & es' & Hee & Hes & ->).
    apply NoDup_cons in Hnd as [Hcur_notin Hnd].
    apply NoDup_cons in Hnd as [Hev_notin Hnd].
    assert (cur ≠ event) as Hne by (intros ->; apply Hcur_notin; left).
    assert (cur ∉ rest) as Hcur_rest by (intros ?; apply Hcur_notin; by right).
    simpl. rewrite Hcur, Hee. simpl.
    destruct (isOverlapping ec ee) eqn:Hov.
    + rewrite (mergeEvents_obj_spec h cur event ec ee Hcur Hee). simpl.
      destruct (IH mergedEvents cur (<[cur := mergeEvents ec ee]> h)
                  (mergeEvents ec ee) es')
        as (out & c & h' & Hrun & Hout & Hhd & Hsub & Hframe & Hid).
      * by apply NoDup_cons.
      * apply lookup_insert_eq.
      * eapply Forall2_impl_elem_of; [exact Hes|].
        intros r e Hre Hr. rewrite lookup_insert_ne; [done|]. by intros ->.
      * exists out, c, h'. split; [done|]. split; [done|]. split; [done|].
        split; [by apply sublist_cons_skip_2|]. split.
        -- intros r Hr. rewrite (Hframe r Hr). apply lookup_insert_ne.
           intros ->. apply Hr. destruct (out ++ [c]) as [|x l]; [done|].
           injection Hhd as ->. left.
        -- intros r. rewrite Hid. destruct (decide (cur = r)) as [<-|Hcr].
           ++ by rewrite lookup_insert_eq, Hcur.
           ++ by rewrite lookup_insert_ne.
    + destruct (IH (mergedEvents ++ [cur]) event h ee es')
        as (out & c & h' & Hrun & Hout & Hhd & Hsub & Hframe & Hid);
        [by apply NoDup_cons|done..|].
      exists (cur :: out), c, h'. split; [|split; [|split; [done|split; [|split; [|done]]]]].
      * simpl. rewrite Hrun. by rewrite <- app_assoc.
      * simpl. constructor; [|done]. rewrite Hframe; [done|].
        intros Hin. apply Hcur_notin. by eapply elem_of_sublist.
      * simpl. by apply sublist_skip.
      * intros r Hr. apply Hframe. intros ?. apply Hr. by right.
Qed.

(** X15: run on an array of different objects, the loop returns
    references to exactly the events the sweep on values returns, in the
    fetched order; it writes to no object but the returned ones, so every
    absorbed object still reads as it was fetched, and no object changes
    its id. *)
Theorem sweep_obj_writes_only_the_returned (events : list N) (h : gmap N Event.t)
    (es : list Event.t) :
  NoDup events →
  deref h events = Some es →
  ∃ out h',
    sweep_obj events h = Some (out, h')
    ∧ deref h' out = Some (sweep es)
    ∧ out `sublist_of` events
    ∧ (∀ r, r ∉ out → h' !! r = h !! r)
    ∧ (∀ r, Event.id <$> h' !! r = Event.id <$> h !! r).
Proof.
  intros Hnd Hes. apply mapM_Some in Hes.
  destruct Hes as [|cur ec rest es Hcur Hes].
  - exists [], h. by repeat split.
  - destruct (sweep_loop_obj_frame rest [] cur h ec es Hnd Hcur Hes)
      as (out & c & h' & Hrun & Hout & _ & Hsub & Hframe & Hid).
    exists (out ++ [c]), h'. unfold sweep_obj. simpl. rewrite Hrun. simpl.
    split; [done|]. split; [|done].
    rewrite sweep_cons. by apply mapM_Some.
Qed.

Lemma sweep_obj_writes_only_the_returned_witness :
  NoDup [1%N; 2%N; 3%N]
  ∧ deref fetched_heap [1%N; 2%N; 3%N] = Some [evA; evB; standalone]
  ∧ ∃ out h',
      sweep_obj [1%N; 2%N; 3%N] fetched_heap = Some (out, h')
      ∧ deref h' out = Some (sweep [evA; evB; standalone]).
Proof.
  assert (NoDup [1%N; 2%N; 3%N]) as Hnd
    by (apply (bool_decide_unpack _); by vm_compute).
  assert (deref fetched_heap [1%N; 2%N; 3%N] = Some [evA; evB; standalone]) as Hes
    by (by vm_compute).
  split; [exact Hnd|]. split; [exact Hes|].
  destruct (sweep_obj_writes_only_the_returned _ _ _ Hnd Hes)
    as (out & h' & Hrun & Hout & _).
  by exists out, h'.
Defined.

(** X16: the six assignments of [mergeEvents] on objects leave the first
    object holding the combined event and write to no other object, also
    when both arguments are the same object. *)
Theorem mergeEvents_obj_writes_the_first_only (h : gmap N Event.t) (r1 r2 : N)
    (e1 e2 : Event.t) :
  h !! r1 = Some e1 →
  h !! r2 = Some e2 →
  ∃ h',
    mergeEvents_obj r1 r2 h = Some h'
    ∧ h' !! r1 = Some (mergeEvents e1 e2)
    ∧ (∀ r, r ≠ r1 → h' !! r = h !! r).
Proof.
  intros H1 H2. exists (<[r1 := mergeEvents e1 e2]> h).
  split; [by apply mergeEvents_obj_spec|]. split; [apply lookup_insert_eq|].
  intros r Hr. by apply lookup_insert_ne.
Qed.

Lemma mergeEvents_obj_writes_the_first_only_witness :
  fetched_heap !! 1%N = Some evA
  ∧ ∃ h',
      mergeEvents_obj 1 1 fetched_heap = Some h'
      ∧ h' !! 1%N = Some (mergeEvents evA evA)
      ∧ h' !! 2%N = Some evB.
Proof.
  assert (fetched_heap !! 1%N = Some evA) as H1 by (by vm_compute).
  split; [exact H1|].
  destruct (mergeEvents_obj_writes_the_first_only fetched_heap 1 1 evA evA H1 H1)
    as (h' & Hrun & Hfirst & Hframe).
  exists h'. split; [done|]. split; [done|].
  rewrite Hframe; [by vm_compute|done].
Defined.
